(** * Heap-based segment tree for stabbing queries

    A shallow embedding of [stab_query_segment_tree.py]: the class
    [SegmentTree] (constructor, [insert], [stab_query], [complete],
    [lowest_incomplete]) together with the two library functions it relies
    on, [bisect.bisect_right] and [math.log].

    Python integers are unbounded and are modelled by [Z].  The node-count
    array [self.__tree] is a [list Z] read and updated by index, with
    Python's rule for negative and out-of-range subscripts written out.
    Exceptions are values of an error monad; loops are structural
    recursions on a fuel argument, and running out of fuel is a separate
    outcome that the development proves unreachable. *)

From Stdlib Require Import ZArith Lia List Bool Sorted Permutation FinFun.
From Stdlib Require Import Ascii String.
From stdpp Require Import base tactics list sorting gmap.

Open Scope Z_scope.

(** ** Outcomes of a Python call *)

Inductive exn : Type :=
| ValueError   (* "math domain error" *)
| IndexError.  (* "list index out of range" *)

Inductive result (A : Type) : Type :=
| Ok (a : A)
| Raise (e : exn)
| OutOfFuel.

Arguments Ok {A} a.
Arguments Raise {A} e.
Arguments OutOfFuel {A}.

Definition bind {A B : Type} (m : result A) (k : A -> result B) : result B :=
  match m with
  | Ok a => k a
  | Raise e => Raise e
  | OutOfFuel => OutOfFuel
  end.

Notation "'do' x <- m ; k" := (bind m (fun x => k))
  (at level 10, x name, m at level 100, k at level 200).

(** ** Python lists subscripted by an integer *)

Module pylist.

(** Position designated by subscript [i] in a list of length [len]:
    [0 <= i < len] is itself, [-len <= i < 0] counts from the end,
    anything else is out of range. *)
Definition index (len : nat) (i : Z) : option nat :=
  let n := Z.of_nat len in
  if (0 <=? i) && (i <? n) then Some (Z.to_nat i)
  else if (- n <=? i) && (i <? 0) then Some (Z.to_nat (n + i))
  else None.

(** [l[i]] *)
Definition getitem (l : list Z) (i : Z) : result Z :=
  match index (length l) i with
  | Some k => Ok (nth k l 0)
  | None => Raise IndexError
  end.

(** [l[i] += d] *)
Definition iadd (l : list Z) (i : Z) (d : Z) : result (list Z) :=
  match index (length l) i with
  | Some k => Ok (<[k := nth k l 0 + d]> l)
  | None => Raise IndexError
  end.

End pylist.

(** ** [bisect.bisect_right] *)

Module bisect.

(** The loop of [bisect_right(a, x, lo, hi)]:
    [while lo < hi: mid = (lo + hi) // 2;
       if x < a[mid]: hi = mid else: lo = mid + 1]. *)
Fixpoint bisect_loop (fuel : nat) (a : list Z) (x : Z) (lo hi : nat) : nat :=
  match fuel with
  | O => lo
  | S fuel' =>
      if (lo <? hi)%nat then
        let mid := ((lo + hi) / 2)%nat in
        if x <? nth mid a 0
        then bisect_loop fuel' a x lo mid
        else bisect_loop fuel' a x (mid + 1)%nat hi
      else lo
  end.

Definition bisect_right (a : list Z) (x : Z) : Z :=
  Z.of_nat (bisect_loop (length a) a x 0%nat (length a)).

End bisect.

(** ** The two uses of [math.log]

    [math.log] is the natural logarithm on floats.  The program never uses
    its value directly, only through [math.floor], so the embedding keeps
    to integers and reads each float expression as the real number it
    denotes:
    - [math.log(x)] raises [ValueError] for [x <= 0];
    - [math.floor(math.log(x))] is the largest [j] with [e^j <= x];
    - [2 ** (1 + math.log(2^k))] is [2 * rho^k] with [rho = 2^(ln 2)].
    The constants [e] and [rho] are given by 40 decimal digits, far beyond
    the 16 of a float; integers are taken to be below [2^53], where
    [float(n)] is exact.

    The floor of the real number is the floor of the float unless the real
    number lies within the rounding error of an integer.  That happens:
    [e^33] is 214643579785916.06..., so the logarithm of 214643579785916
    is below 33 by less than the spacing of the floats there, and
    [math.floor(math.log(214643579785916))] is 33 where [floor_log] gives
    32; likewise the [lowest_incomplete] of the code is 132034237 for
    [N = 1804466928] where [floor_div_pow] gives 132034236.  The properties below that
    depend on a value of [floor_log] or [floor_div_pow] take it at the
    arguments of small trees and of the trees of the test suite; the others
    only use whether the value is defined and positive. *)

Module math.

Definition digits : Z := 10 ^ 39.

(** e = 2.718281828459045235360287471352662497757... *)
Definition e_num : Z := 2718281828459045235360287471352662497757.

(** rho = 2^(ln 2) = 1.616806672241674663299273071166783947528... *)
Definition rho_num : Z := 1616806672241674663299273071166783947528.

(** The search for the largest [j] with [e^j <= x]: [pe] is [e^j] to 39
    decimal places, rounded down, and the next power is one fixed-point
    multiplication away. *)
Fixpoint floor_log_loop (fuel : nat) (x j pe : Z) : Z :=
  match fuel with
  | O => j
  | S fuel' =>
      let pe' := pe * e_num / digits in
      if pe' <=? x * digits then floor_log_loop fuel' x (j + 1) pe' else j
  end.

(** [math.floor(math.log(x))] *)
Definition floor_log (x : Z) : result Z :=
  if x <=? 0 then Raise ValueError
  else Ok (floor_log_loop (Z.to_nat (Z.log2 x) + 1) x 0 digits).

(** [math.floor(float(n) / 2 ** (1 + math.log(b)))] for [b = 2^k]. *)
Definition floor_div_pow (n b : Z) : result Z :=
  if b <=? 0 then Raise ValueError
  else let k := Z.log2 b in
       Ok ((n * digits ^ k) / (2 * rho_num ^ k)).

End math.

(** ** [class SegmentTree] *)

Module SegmentTree.

Record t : Type := mk {
  total : Z;          (* self.__total *)
  tree : list Z;      (* self.__tree *)
  N : Z;              (* self.__N *)
  points : list Z     (* self.__points *)
}.

Definition set_tree (self : t) (tr : list Z) : t :=
  {| total := total self; tree := tr; N := N self; points := points self |}.

(** The [while l <= r] loop of [insert].  The code halves on floats,
    [int(math.floor((l+1)/2))]; an integer below [2^53] in absolute value
    is halved exactly, and the loop is written with the exact halving.  The
    boundaries that [__init__] passes are at most twice the number of
    coordinates; for larger ones, passed to [insert] directly, the two
    halvings part (at [2^53 + 3] the float gives [2^52 + 2]). *)
Fixpoint insert_loop (fuel : nat) (tr : list Z) (l r : Z) : result (list Z) :=
  match fuel with
  | O => OutOfFuel
  | S fuel' =>
      if l <=? r then
        do tr1 <- (if l mod 2 =? 1 then pylist.iadd tr l 1 else Ok tr);
        let l' := (l + 1) / 2 in
        do tr2 <- (if r mod 2 =? 0 then pylist.iadd tr1 r 1 else Ok tr1);
        let r' := (r - 1) / 2 in
        insert_loop fuel' tr2 l' r'
      else Ok tr
  end.

Definition insert_fuel (l r : Z) : nat := S (Z.to_nat (r - l + 1)).

Definition insert (self : t) (startpoint endpoint : Z) : result t :=
  let l := startpoint + N self in
  let r := endpoint + N self in
  do tr <- insert_loop (insert_fuel l r) (tree self) l r;
  Ok (set_tree self tr).

(** The state of [__init__] before its loop over [segments]. *)
Definition alloc (points : list Z) : t :=
  let n := Z.of_nat (length points) in
  let total := 2 * n - 1 in
  {| total := total;
     tree := repeat 0 (Z.to_nat (total + 2));
     N := Z.quot total 2 - 1;
     points := points |}.

(** One turn of the loop of [__init__]. *)
Definition insert_segment (self : t) (seg : Z * Z) : result t :=
  let '(startpoint, endpoint) := seg in
  let startpoint' := bisect.bisect_right (points self) startpoint + 1 in
  let endpoint' := bisect.bisect_right (points self) endpoint + 1 in
  insert self startpoint' endpoint'.

Fixpoint insert_all (self : t) (segments : list (Z * Z)) : result t :=
  match segments with
  | [] => Ok self
  | seg :: rest => do self' <- insert_segment self seg; insert_all self' rest
  end.

(** [SegmentTree(points, segments)] *)
Definition __init__ (points : list Z) (segments : list (Z * Z)) : result t :=
  insert_all (alloc points) segments.

Definition lowest_incomplete (self : t) (node : Z) : result Z :=
  math.floor_div_pow (N self) (Z.land (N self) (- N self)).

Definition complete (self : t) (node : Z) : result bool :=
  do li <- lowest_incomplete self node;
  do a <- math.floor_log li;
  do b <- math.floor_log node;
  (* formula = 2 ** (a - b); z = math.floor(li / formula) *)
  let z := if 0 <=? a - b then li / 2 ^ (a - b) else li * 2 ^ (b - a) in
  Ok (node =? z).

(** One turn of the [while not self.complete(node)] loop of [stab_query]:
    either the loop is left with the count to return, or it goes on from
    the parent. *)
Inductive turn : Type :=
| Leave (count : Z)
| Again (node count : Z).

Definition stab_step (self : t) (node count : Z) : result turn :=
  do c <- complete self node;
  if c then Ok (Leave count)
  else
    do v <- pylist.getitem (tree self) node;
    let count := count + v in
    let node := node / 2 in
    if node =? 0 then Ok (Leave count)
    else Ok (Again node count).

Fixpoint stab_loop (fuel : nat) (self : t) (node count : Z) : result Z :=
  match fuel with
  | O => OutOfFuel
  | S fuel' =>
      do o <- stab_step self node count;
      match o with
      | Leave count => Ok count
      | Again node count => stab_loop fuel' self node count
      end
  end.

(** The leaf [stab_query] starts from. *)
Definition leaf (self : t) (point : Z) : Z :=
  (bisect.bisect_right (points self) point + N self) + 1.

Definition stab_query (self : t) (point : Z) : result Z :=
  let node := leaf self point in
  stab_loop (S (Z.to_nat node)) self node 0.

End SegmentTree.

Import SegmentTree.

(** ** Text of the points file

    A text is a [string] whose characters are code points below 256.  The
    file is seen as Python reads it in text mode, with every line end
    already translated to ["\n"]. *)

Module text.

Definition newline : ascii := "010"%char.

(** [str(n)] for a natural number [n]: its decimal digits, most significant
    first, prepended to [acc]. *)
Fixpoint digits_of (fuel : nat) (n : Z) (acc : string) : string :=
  match fuel with
  | O => acc
  | S fuel' =>
      let acc' := String (ascii_of_nat (48 + Z.to_nat (n mod 10))) acc in
      if n <? 10 then acc' else digits_of fuel' (n / 10) acc'
  end.

(** [str(z)], also ["%s" % z], for an integer [z]. *)
Definition str (z : Z) : string :=
  if z <? 0
  then String "-" (digits_of (S (Z.to_nat (Z.log2 (- z)))) (- z) EmptyString)
  else digits_of (S (Z.to_nat (Z.log2 z))) z EmptyString.

(** The lines of a text, as iterating over the open file gives them: each
    with its ["\n"], but for a last line that has none. *)
Fixpoint lines (s : string) : list string :=
  match s with
  | EmptyString => []
  | String c rest =>
      if Ascii.eqb c newline then String c EmptyString :: lines rest
      else match lines rest with
           | [] => [String c EmptyString]
           | l :: ls => String c l :: ls
           end
  end.

(** [s.rstrip('\n')] *)
Fixpoint rstrip_newline (s : string) : string :=
  match s with
  | EmptyString => EmptyString
  | String c rest =>
      match rstrip_newline rest with
      | EmptyString => if Ascii.eqb c newline then EmptyString else String c EmptyString
      | r => String c r
      end
  end.

(** What [int] takes for white space around a literal: the ASCII
    characters tab, line feed, vertical tab, form feed, carriage return and
    space, and, of the characters beyond ASCII, those for which
    [str.isspace] holds (next line and no-break space).  The separators 28
    to 31, white space for [str.isspace], are not white space for [int]. *)
Definition is_space (c : ascii) : bool :=
  let n := nat_of_ascii c in
  ((9 <=? n) && (n <=? 13) || (n =? 32) || (n =? 133) || (n =? 160))%nat.

Definition is_digit (c : ascii) : bool :=
  let n := nat_of_ascii c in ((48 <=? n) && (n <=? 57))%nat.

Definition digit_value (c : ascii) : Z := Z.of_nat (nat_of_ascii c) - 48.

Fixpoint lstrip (s : string) : string :=
  match s with
  | String c rest => if is_space c then lstrip rest else s
  | EmptyString => s
  end.

Fixpoint rstrip (s : string) : string :=
  match s with
  | EmptyString => EmptyString
  | String c rest =>
      match rstrip rest with
      | EmptyString => if is_space c then EmptyString else String c EmptyString
      | r => String c r
      end
  end.

(** The digits of a literal in base 10: a digit, then digits, each of them
    possibly after one underscore.  [after_digit] tells whether the last
    character read was a digit. *)
Fixpoint digits_value (s : string) (acc : Z) (after_digit : bool) : option Z :=
  match s with
  | EmptyString => if after_digit then Some acc else None
  | String c rest =>
      if is_digit c then digits_value rest (10 * acc + digit_value c) true
      else if Ascii.eqb c "_" && after_digit then digits_value rest acc false
      else None
  end.

(** [int(s)] for a text [s]: white space around, a sign, digits. *)
Definition int (s : string) : result Z :=
  let s := rstrip (lstrip s) in
  let '(negative, body) :=
    match s with
    | EmptyString => (false, s)
    | String c rest =>
        if Ascii.eqb c "-" then (true, rest)
        else if Ascii.eqb c "+" then (false, rest)
        else (false, s)
    end in
  match digits_value body 0 false with
  | Some v => Ok (if negative then - v else v)
  | None => Raise ValueError
  end.

(** The value that [digits_value] has accumulated after the digits of [n],
    starting from [acc]. *)
Fixpoint pushed (fuel : nat) (n acc : Z) : Z :=
  match fuel with
  | O => acc
  | S fuel' =>
      if n <? 10 then 10 * acc + n
      else 10 * pushed fuel' (n / 10) acc + n mod 10
  end.

(** A text without white space. *)
Fixpoint no_space (s : string) : bool :=
  match s with
  | EmptyString => true
  | String c rest => negb (is_space c) && no_space rest
  end.

(** A text made of digits only. *)
Fixpoint all_digits (s : string) : bool :=
  match s with
  | EmptyString => true
  | String c rest => is_digit c && all_digits rest
  end.

End text.


(** ** [load_points] and [main]

    The two CSV files are taken as [csv.DictReader] and [int] deliver them:
    [reads.csv] as the list of its [(start, length)] rows, [loci.csv] as the
    list of its positions.  [main] writes its table back to [loci.csv]; the
    position column of the table is the one that was read, so the positions
    stay a parameter.  The points file is a text; the pickle file holds a
    tree. *)

Record files : Type := {
  points_file : option string;   (* distinct_points.txt, when it exists *)
  pickleTree : option t          (* segmentTree.pkl, when it exists *)
}.

(** [points.add(startpoint); points.add(startpoint + length)] *)
Definition add_points (points : gset Z) (row : Z * Z) : gset Z :=
  let '(startpoint, length) := row in
  {[ startpoint + length ]} ∪ ({[ startpoint ]} ∪ points).

(** [f.writelines("%s\n" % l for l in points)] *)
Fixpoint write_points (points : list Z) : string :=
  match points with
  | [] => EmptyString
  | l :: rest => (text.str l ++ String text.newline (write_points rest))%string
  end.

(** [[int(line.rstrip('\n')) for line in ...]] *)
Fixpoint ints_of_lines (ls : list string) : result (list Z) :=
  match ls with
  | [] => Ok []
  | line :: rest =>
      do x <- text.int (text.rstrip_newline line);
      do xs <- ints_of_lines rest;
      Ok (x :: xs)
  end.

Definition load_points (reads : list (Z * Z)) (fs : files)
  : result (list Z) * files :=
  match points_file fs with
  | None =>
      let points := foldl add_points ∅ reads in
      let points := merge_sort Z.le (elements points) in
      (Ok points,
       {| points_file := Some (write_points points); pickleTree := pickleTree fs |})
  | Some content => (ints_of_lines (text.lines content), fs)
  end.

(** [segments.append((startpoint, startpoint + length))] *)
Definition segments_of (reads : list (Z * Z)) : list (Z * Z) :=
  map (fun row => (fst row, fst row + snd row)) reads.

(** An entry of [loci_list]: the header or a [(position, coverage)] pair. *)
Inductive entry : Type :=
| Header (first second : string)
| Locus (position coverage : Z).

(** The loop over the rows of [loci.csv]. *)
Fixpoint query_loci (segmentTree : t) (positions : list Z) (loci_list : list entry)
  : result (list entry) :=
  match positions with
  | [] => Ok loci_list
  | position :: rest =>
      do coverage <- stab_query segmentTree position;
      query_loci segmentTree rest (loci_list ++ [Locus position coverage])
  end.

Definition main (reads : list (Z * Z)) (positions : list Z) (fs : files)
  : result (list entry) * files :=
  let header := [Header "position" "coverage"] in
  match pickleTree fs with
  | None =>
      let '(loaded, fs) := load_points reads fs in
      match loaded with
      | Ok points =>
          match __init__ points (segments_of reads) with
          | Ok segmentTree =>
              (query_loci segmentTree positions header,
               {| points_file := points_file fs; pickleTree := Some segmentTree |})
          | Raise e => (Raise e, fs)
          | OutOfFuel => (OutOfFuel, fs)
          end
      | Raise e => (Raise e, fs)
      | OutOfFuel => (OutOfFuel, fs)
      end
  | Some segmentTree => (query_loci segmentTree positions header, fs)
  end.

Definition no_files : files := {| points_file := None; pickleTree := None |}.

(** The number of reads [(start, length)] with
    [start <= p <= start + length]. *)
Definition reads_over (p : Z) (reads : list (Z * Z)) : Z :=
  Z.of_nat (List.length (List.filter
    (fun row => (fst row <=? p) && (p <=? fst row + snd row)) reads)).

(** * Specification vocabulary *)

(** The number of coordinates that are at most [x]. *)
Definition rank_le (a : list Z) (x : Z) : Z :=
  Z.of_nat (length (List.filter (fun c => c <=? x) a)).

(** The compression of the specification: the number of coordinates
    [<= x], plus one. *)
Definition compress (a : list Z) (x : Z) : Z := rank_le a x + 1.

(** A closed interval contains the point, both ends included. *)
Definition covers (p : Z) (seg : Z * Z) : bool :=
  (fst seg <=? p) && (p <=? snd seg).

(** The number of intervals of [segments] that contain [p]. *)
Definition stabbed (p : Z) (segments : list (Z * Z)) : Z :=
  Z.of_nat (length (List.filter (covers p) segments)).

(** Multiplicity of [j] in a list of node indices. *)
Definition occ (j : Z) (ns : list Z) : Z := Z.of_nat (count_occ Z.eq_dec ns j).

(** The node indices that the loop of [insert] increments, in order. *)
Fixpoint insert_nodes (fuel : nat) (l r : Z) : list Z :=
  match fuel with
  | O => []
  | S fuel' =>
      if l <=? r then
        (if l mod 2 =? 1 then [l] else []) ++
        (if r mod 2 =? 0 then [r] else []) ++
        insert_nodes fuel' ((l + 1) / 2) ((r - 1) / 2)
      else []
  end.

(** The nodes incremented for one segment, in a tree with offset [n] over
    coordinates [pts]. *)
Definition seg_nodes (n : Z) (pts : list Z) (seg : Z * Z) : list Z :=
  let l := bisect.bisect_right pts (fst seg) + 1 + n in
  let r := bisect.bisect_right pts (snd seg) + 1 + n in
  insert_nodes (insert_fuel l r) l r.

(** The nodes on the way from [a] to the root: [a], [a/2], ..., [1]. *)
Fixpoint path (fuel : nat) (a : Z) : list Z :=
  match fuel with
  | O => []
  | S fuel' => if a <=? 0 then [] else a :: path fuel' (a / 2)
  end.

Definition ancestors (a : Z) : list Z := path (S (Z.to_nat a)) a.

(** The sum of the counts stored at the nodes [js]. *)
Fixpoint path_sum (tr : list Z) (js : list Z) : Z :=
  match js with
  | [] => 0
  | j :: js' => nth (Z.to_nat j) tr 0 + path_sum tr js'
  end.

(** How many of the increments [ns] fall on the nodes [js]. *)
Fixpoint sum_occ (js : list Z) (ns : list Z) : Z :=
  match js with
  | [] => 0
  | j :: js' => occ j ns + sum_occ js' ns
  end.

(** A tree as the constructor leaves it: the offset keeps every leaf inside
    the array. *)
Definition shaped (self : t) : Prop :=
  let n := Z.of_nat (length (points self)) in
  -1 <= N self <= n - 1 /\ Z.of_nat (length (tree self)) = 2 * n + 1.

(** A check that a list is in non-decreasing order. *)
Fixpoint sortedb (a : list Z) : bool :=
  match a with
  | [] => true
  | x :: rest =>
      match rest with
      | [] => true
      | y :: _ => (x <=? y) && sortedb rest
      end
  end.

(** The coordinates and intervals of [test_toy_set], without the random
    filler. *)
Definition toy_points : list Z :=
  [3; 4; 6; 7; 8; 9; 10; 20; 50; 76; 89; 1000; 7000000].

Definition toy_segments : list (Z * Z) :=
  [(3, 4); (3, 4); (3, 4); (3, 4); (3, 6); (10, 20); (6, 50); (3, 3);
   (1000, 7000000)].

(** [stab_query] from a given leaf. *)
Definition query_at (self : t) (node : Z) : result Z :=
  stab_loop (S (Z.to_nat node)) self node 0.

(** The loop of the constructor, over endpoints that are already ranked. *)
Fixpoint insert_ranked (self : t) (ranks : list (Z * Z)) : result t :=
  match ranks with
  | [] => Ok self
  | lr :: rest => do self' <- insert self (fst lr) (snd lr); insert_ranked self' rest
  end.

Definition ranked (pts : list Z) (seg : Z * Z) : Z * Z :=
  (bisect.bisect_right pts (fst seg) + 1, bisect.bisect_right pts (snd seg) + 1).

(** [test_toy_set] draws 100000 distinct points from [range(10000, 1000000)]
    and adds the thirteen toy coordinates: 100013 coordinates. *)
Definition toy_sample_size : Z := 100000.
Definition toy_size : Z := toy_sample_size + 13.

(** The freshly allocated tree of [test_toy_set], over coordinates [pts]:
    [alloc] with the size already known. *)
Definition toy_alloc (pts : list Z) : t :=
  let total := 2 * toy_size - 1 in
  {| total := total;
     tree := repeat 0 (Z.to_nat (total + 2));
     N := Z.quot total 2 - 1;
     points := pts |}.

(** The ranks of the endpoints of [toy_segments] among those coordinates:
    the twelve small coordinates come first, 7000000 comes last. *)
Definition toy_ranks : list (Z * Z) :=
  [(2, 3); (2, 3); (2, 3); (2, 3); (2, 4); (8, 9); (4, 10); (2, 2);
   (13, toy_size + 1)].

(** The six queries of [test_toy_set] from their leaves; the point 10000
    has rank 12 or 13, as the sample contains it or not. *)
Definition toy_run (self0 : t) : result (list Z) :=
  let leaf_of (rank : Z) := rank + (toy_size - 2) + 1 in
  do self <- insert_ranked self0 toy_ranks;
  do a <- query_at self (leaf_of 7);
  do b <- query_at self (leaf_of 1);
  do c <- query_at self (leaf_of 2);
  do d <- query_at self (leaf_of 4);
  do e <- query_at self (leaf_of 3);
  do f <- query_at self (leaf_of 12);
  do g <- query_at self (leaf_of 13);
  Ok [a; b; c; d; e; f; g].

(** [n] consecutive integers from [x] on. *)
Fixpoint upto (n : nat) (x : Z) : list Z :=
  match n with
  | O => []
  | S n' => x :: upto n' (x + 1)
  end.

(** A sample for [test_toy_set]: 10000, 10001, ..., 109999. *)
Definition a_sample : list Z := upto (Z.to_nat toy_sample_size) 10000.

Definition a_sorted_points : list Z :=
  [3; 4; 6; 7; 8; 9; 10; 20; 50; 76; 89; 1000] ++ a_sample ++ [7000000].

(** The sizes of the coordinate list at which [stab_query] fails. *)
Definition size_fails (n : nat) : bool :=
  match n with
  | 0 | 1 | 2 | 3 | 4 | 6 | 10 => true
  | _ => false
  end%nat.

(** Seven reads whose starts and ends are the thirteen toy coordinates. *)
Definition toy_reads : list (Z * Z) :=
  [(3, 1); (6, 1); (8, 1); (10, 10); (50, 26); (89, 911); (9, 6999991)].

(** * Properties *)

(** ** Binary search *)

Lemma sorted_nth (a : list Z) :
  StronglySorted Z.le a ->
  forall i j : nat, (i <= j < length a)%nat -> nth i a 0 <= nth j a 0.
Proof.
  induction 1 as [|c a Hs IH Hall]; intros i j Hij; simpl in *; [lia|].
  destruct i as [|i], j as [|j]; try lia.
  - rewrite Forall_forall in Hall. apply Hall.
    apply list_elem_of_In, nth_In. lia.
  - apply IH. lia.
Qed.

Lemma split_count (x : Z) (a : list Z) :
  forall k : nat,
    (k <= length a)%nat ->
    (forall i : nat, (i < k)%nat -> nth i a 0 <= x) ->
    (forall i : nat, (k <= i < length a)%nat -> x < nth i a 0) ->
    length (List.filter (fun c => c <=? x) a) = k.
Proof.
  induction a as [|c a IH]; intros k Hk Hlo Hhi; simpl in *; [lia|].
  destruct k as [|k].
  - specialize (Hhi 0%nat ltac:(lia)) as Hc. simpl in Hc.
    destruct (Z.leb_spec c x); [lia|].
    apply (IH 0%nat); [lia | intros; lia |].
    intros i Hi. apply (Hhi (S i)). lia.
  - specialize (Hlo 0%nat ltac:(lia)) as Hc. simpl in Hc.
    destruct (Z.leb_spec c x); [|lia]. simpl. f_equal.
    apply IH; [lia | |].
    + intros i Hi. apply (Hlo (S i)). lia.
    + intros i Hi. apply (Hhi (S i)). lia.
Qed.

Lemma bisect_loop_split (a : list Z) (x : Z) :
  StronglySorted Z.le a ->
  forall (fuel lo hi : nat),
    (lo <= hi <= length a)%nat ->
    (hi - lo <= fuel)%nat ->
    (forall i : nat, (i < lo)%nat -> nth i a 0 <= x) ->
    (forall i : nat, (hi <= i < length a)%nat -> x < nth i a 0) ->
    (bisect.bisect_loop fuel a x lo hi <= length a)%nat /\
    (forall i : nat, (i < bisect.bisect_loop fuel a x lo hi)%nat -> nth i a 0 <= x) /\
    (forall i : nat,
        (bisect.bisect_loop fuel a x lo hi <= i < length a)%nat -> x < nth i a 0).
Proof.
  intros Hs. induction fuel as [|fuel IH]; intros lo hi Hb Hf Hlo Hhi;
    cbn [bisect.bisect_loop].
  - assert (lo = hi) by lia. subst. repeat split; [lia | auto | auto].
  - destruct (Nat.ltb_spec lo hi) as [Hlt|Hge].
    + set (mid := ((lo + hi) / 2)%nat).
      assert (Hmid : (lo <= mid < hi)%nat).
      { unfold mid. split.
        - apply Nat.div_le_lower_bound; lia.
        - apply Nat.Div0.div_lt_upper_bound; lia. }
      destruct (Z.ltb_spec x (nth mid a 0)) as [Hx|Hx].
      * apply IH; [lia | lia | auto |].
        intros i Hi. pose proof (sorted_nth a Hs mid i ltac:(lia)). lia.
      * apply IH; [lia | lia | | auto].
        intros i Hi. pose proof (sorted_nth a Hs i mid ltac:(lia)). lia.
    + assert (lo = hi) by lia. subst. repeat split; [lia | auto | auto].
Qed.

(** On a sorted list [bisect_right] is the number of elements [<= x]. *)
Lemma bisect_right_rank (a : list Z) (x : Z) :
  StronglySorted Z.le a -> bisect.bisect_right a x = rank_le a x.
Proof.
  intros Hs. unfold bisect.bisect_right, rank_le. f_equal. symmetry.
  destruct (bisect_loop_split a x Hs (length a) 0%nat (length a))
    as (Hk & Hlo & Hhi); [lia | lia | intros; lia | intros; lia |].
  apply split_count; auto.
Qed.

Lemma bisect_loop_bounds (a : list Z) (x : Z) :
  forall (fuel lo hi : nat),
    (lo <= hi)%nat ->
    (lo <= bisect.bisect_loop fuel a x lo hi <= hi)%nat.
Proof.
  induction fuel as [|fuel IH]; intros lo hi Hb; cbn [bisect.bisect_loop]; [lia|].
  destruct (Nat.ltb_spec lo hi) as [Hlt|Hge]; [|lia].
  assert (Hmid : (lo <= (lo + hi) / 2 < hi)%nat).
  { split.
    - apply Nat.div_le_lower_bound; lia.
    - apply Nat.Div0.div_lt_upper_bound; lia. }
  destruct (x <? nth ((lo + hi) / 2) a 0).
  - specialize (IH lo ((lo + hi) / 2)%nat). lia.
  - specialize (IH ((lo + hi) / 2 + 1)%nat hi). lia.
Qed.

(** Sorted or not, the result is a position of the list. *)
Lemma bisect_right_bounds (a : list Z) (x : Z) :
  0 <= bisect.bisect_right a x <= Z.of_nat (length a).
Proof.
  unfold bisect.bisect_right.
  pose proof (bisect_loop_bounds a x (length a) 0%nat (length a)). lia.
Qed.

(** ** The array under [insert] *)

Lemma index_in_range (len : nat) (i : Z) :
  0 <= i < Z.of_nat len -> pylist.index len i = Some (Z.to_nat i).
Proof.
  intros Hi. unfold pylist.index.
  destruct (Z.leb_spec 0 i); [|lia]. destruct (Z.ltb_spec i (Z.of_nat len)); [|lia].
  reflexivity.
Qed.

Lemma index_lt (len : nat) (i : Z) (k : nat) :
  pylist.index len i = Some k -> (k < len)%nat.
Proof.
  unfold pylist.index.
  destruct (Z.leb_spec 0 i), (Z.ltb_spec i (Z.of_nat len)); simpl;
    try (intros [= <-]; lia);
    destruct (Z.leb_spec (- Z.of_nat len) i), (Z.ltb_spec i 0); simpl;
    try discriminate; intros [= <-]; lia.
Qed.

Lemma nth_insert (l : list Z) (k j : nat) (v : Z) :
  (k < length l)%nat ->
  nth j (<[k := v]> l) 0 = if decide (j = k) then v else nth j l 0.
Proof.
  revert k j. induction l as [|c l IH]; intros k j Hk; simpl in *; [lia|].
  destruct k as [|k], j as [|j]; simpl; try reflexivity.
  rewrite IH by lia. repeat case_decide; congruence.
Qed.

Lemma occ_nil (j : Z) : occ j [] = 0.
Proof. reflexivity. Qed.

Lemma occ_app (j : Z) (ns ms : list Z) : occ j (ns ++ ms) = occ j ns + occ j ms.
Proof. unfold occ. rewrite count_occ_app. lia. Qed.

Lemma occ_cons (j i : Z) (ns : list Z) :
  occ j (i :: ns) = (if decide (i = j) then 1 else 0) + occ j ns.
Proof.
  unfold occ. simpl. destruct (Z.eq_dec i j); case_decide; try congruence; lia.
Qed.

Lemma occ_nonneg (j : Z) (ns : list Z) : 0 <= occ j ns.
Proof. unfold occ. lia. Qed.

Lemma occ_absent (j : Z) (ns : list Z) : ~ In j ns -> occ j ns = 0.
Proof. intros H. unfold occ. rewrite (proj1 (count_occ_not_In Z.eq_dec ns j) H). reflexivity. Qed.

(** Incrementing one slot that lies inside the array. *)
Lemma iadd_in_range (tr : list Z) (i : Z) :
  0 <= i < Z.of_nat (length tr) ->
  exists tr',
    pylist.iadd tr i 1 = Ok tr' /\
    length tr' = length tr /\
    forall j : nat, nth j tr' 0 = nth j tr 0 + occ (Z.of_nat j) [i].
Proof.
  intros Hi. unfold pylist.iadd. rewrite index_in_range by assumption.
  eexists. split; [reflexivity|]. split; [apply length_insert|].
  intros j. rewrite nth_insert by lia. rewrite occ_cons, occ_nil.
  repeat case_decide; subst; lia.
Qed.

(** With the boundaries inside the array the loop of [insert] ends with no
    error and adds one to each node listed by [insert_nodes]. *)
Lemma insert_loop_spec :
  forall (fuel : nat) (tr : list Z) (l r : Z),
    0 <= l ->
    r < Z.of_nat (length tr) ->
    Z.max 0 (r - l + 1) < Z.of_nat fuel ->
    exists tr',
      insert_loop fuel tr l r = Ok tr' /\
      length tr' = length tr /\
      forall j : nat, nth j tr' 0 = nth j tr 0 + occ (Z.of_nat j) (insert_nodes fuel l r).
Proof.
  induction fuel as [|fuel IH]; intros tr l r Hl Hr Hf; [lia|].
  cbn [insert_loop insert_nodes].
  destruct (Z.leb_spec l r) as [Hlr|Hlr].
  2:{ exists tr. repeat split. intros j. rewrite occ_nil. lia. }
  assert (Hstep1 : exists tr1,
    (if l mod 2 =? 1 then pylist.iadd tr l 1 else Ok tr) = Ok tr1 /\
    length tr1 = length tr /\
    forall j : nat, nth j tr1 0 = nth j tr 0 +
      occ (Z.of_nat j) (if l mod 2 =? 1 then [l] else [])).
  { destruct (l mod 2 =? 1).
    - apply iadd_in_range. lia.
    - exists tr. repeat split. intros j. rewrite occ_nil. lia. }
  destruct Hstep1 as (tr1 & -> & Hlen1 & Hnth1). cbn [bind].
  assert (Hstep2 : exists tr2,
    (if r mod 2 =? 0 then pylist.iadd tr1 r 1 else Ok tr1) = Ok tr2 /\
    length tr2 = length tr1 /\
    forall j : nat, nth j tr2 0 = nth j tr1 0 +
      occ (Z.of_nat j) (if r mod 2 =? 0 then [r] else [])).
  { destruct (r mod 2 =? 0).
    - apply iadd_in_range. lia.
    - exists tr1. repeat split. intros j. rewrite occ_nil. lia. }
  destruct Hstep2 as (tr2 & -> & Hlen2 & Hnth2). cbn [bind].
  destruct (IH tr2 ((l + 1) / 2) ((r - 1) / 2)) as (tr' & Heq & Hlen & Hnth).
  - apply Z.div_pos; lia.
  - assert ((r - 1) / 2 <= r) by (apply Z.div_le_upper_bound; lia). lia.
  - assert ((r - 1) / 2 <= (r - 1) / 2) by lia.
    pose proof (Z.div_mod (r - 1) 2 ltac:(lia)).
    pose proof (Z.div_mod (l + 1) 2 ltac:(lia)).
    pose proof (Z.mod_pos_bound (r - 1) 2 ltac:(lia)).
    pose proof (Z.mod_pos_bound (l + 1) 2 ltac:(lia)).
    lia.
  - exists tr'. split; [exact Heq|]. split; [congruence|].
    intros j. rewrite Hnth, Hnth2, Hnth1, !occ_app. lia.
Qed.

Lemma set_tree_id (self : t) : set_tree self (tree self) = self.
Proof. destruct self; reflexivity. Qed.

Lemma set_tree_twice (self : t) (tr tr' : list Z) :
  set_tree (set_tree self tr) tr' = set_tree self tr'.
Proof. reflexivity. Qed.

Lemma shaped_set_tree (self : t) (tr : list Z) :
  shaped self -> length tr = length (tree self) -> shaped (set_tree self tr).
Proof. unfold shaped. simpl. intros [HN Hlen] ->. auto. Qed.

Lemma insert_fuel_enough (l r : Z) : Z.max 0 (r - l + 1) < Z.of_nat (insert_fuel l r).
Proof. unfold insert_fuel. lia. Qed.

(** In a shaped tree one segment is inserted without error, whatever its
    endpoints are. *)
Lemma insert_segment_spec (self : t) (seg : Z * Z) :
  shaped self ->
  exists tr',
    insert_segment self seg = Ok (set_tree self tr') /\
    length tr' = length (tree self) /\
    forall j : nat,
      nth j tr' 0 = nth j (tree self) 0 +
                    occ (Z.of_nat j) (seg_nodes (N self) (points self) seg).
Proof.
  intros [HN Hlen]. destruct seg as [s e].
  unfold insert_segment, insert, seg_nodes. cbn [fst snd].
  pose proof (bisect_right_bounds (points self) s) as Hs.
  pose proof (bisect_right_bounds (points self) e) as He.
  set (l := bisect.bisect_right (points self) s + 1 + N self) in *.
  set (r := bisect.bisect_right (points self) e + 1 + N self) in *.
  destruct (insert_loop_spec (insert_fuel l r) (tree self) l r)
    as (tr' & -> & Hlen' & Hnth).
  - unfold l. lia.
  - unfold r. lia.
  - apply insert_fuel_enough.
  - exists tr'. cbn [bind]. auto.
Qed.

Lemma insert_all_spec (segments : list (Z * Z)) :
  forall self : t,
    shaped self ->
    exists tr',
      insert_all self segments = Ok (set_tree self tr') /\
      length tr' = length (tree self) /\
      forall j : nat,
        nth j tr' 0 = nth j (tree self) 0 +
                      occ (Z.of_nat j)
                          (flat_map (seg_nodes (N self) (points self)) segments).
Proof.
  induction segments as [|seg rest IH]; intros self Hsh; cbn [insert_all flat_map].
  - exists (tree self). rewrite set_tree_id. repeat split.
    intros j. rewrite occ_nil. lia.
  - destruct (insert_segment_spec self seg Hsh) as (tr1 & -> & Hlen1 & Hnth1).
    cbn [bind].
    destruct (IH (set_tree self tr1) (shaped_set_tree _ _ Hsh Hlen1))
      as (tr' & Heq & Hlen & Hnth).
    exists tr'. rewrite Heq, set_tree_twice. split; [reflexivity|].
    split; [simpl in Hlen; congruence|].
    intros j. rewrite Hnth. simpl. rewrite Hnth1, occ_app. lia.
Qed.

(** ** The constructor *)

Lemma alloc_N (pts : list Z) :
  N (alloc pts) = if length pts is O then -1 else Z.of_nat (length pts) - 2.
Proof.
  unfold alloc. cbn [N]. destruct pts as [|c pts]; [reflexivity|].
  cbn [length]. rewrite Z.quot_div_nonneg by lia.
  assert ((2 * Z.of_nat (S (length pts)) - 1) / 2 = Z.of_nat (S (length pts)) - 1).
  { symmetry. apply (Z.div_unique _ _ _ 1); lia. }
  lia.
Qed.

Lemma alloc_length (pts : list Z) :
  Z.of_nat (length (tree (alloc pts))) = 2 * Z.of_nat (length pts) + 1.
Proof. unfold alloc. cbn [tree]. rewrite repeat_length. lia. Qed.

Lemma alloc_shaped (pts : list Z) : shaped (alloc pts).
Proof.
  split.
  - rewrite alloc_N. cbn [alloc points]. destruct pts; simpl; lia.
  - rewrite alloc_length. reflexivity.
Qed.

Lemma alloc_zero (pts : list Z) (j : nat) : nth j (tree (alloc pts)) 0 = 0.
Proof. unfold alloc. cbn [tree]. apply nth_repeat. Qed.

(** What [SegmentTree(points, segments)] returns: the array counts, at each
    node, the increments of all segments. *)
Lemma init_spec (pts : list Z) (segments : list (Z * Z)) :
  exists tr,
    __init__ pts segments = Ok (set_tree (alloc pts) tr) /\
    Z.of_nat (length tr) = 2 * Z.of_nat (length pts) + 1 /\
    forall j : nat,
      nth j tr 0 = occ (Z.of_nat j) (flat_map (seg_nodes (N (alloc pts)) pts) segments).
Proof.
  destruct (insert_all_spec segments (alloc pts) (alloc_shaped pts))
    as (tr & Heq & Hlen & Hnth).
  exists tr. split; [exact Heq|]. split.
  - rewrite Hlen. apply alloc_length.
  - intros j. rewrite Hnth, alloc_zero. reflexivity.
Qed.

(** C4 (as stated, refuted): on the thirteen coordinates of the toy set the
    constructor does not set the offset [N] to [n - 1 = 12]. *)
Lemma offset_not_pred_size :
  exists self, __init__ toy_points toy_segments = Ok self /\
               N self <> Z.of_nat (length toy_points) - 1.
Proof. eexists. split; [vm_compute; reflexivity|]. vm_compute. discriminate. Qed.

(** C4 (amended): for every coordinate list of size [n >= 1] and every
    list of segments, the constructor returns a tree whose offset [N] is
    [int((2n - 1) / 2) - 1 = n - 2]; for the empty list it is [-1]. *)
Theorem offset_is_size_minus_two (pts : list Z) (segments : list (Z * Z)) :
  exists self,
    __init__ pts segments = Ok self /\
    N self = if length pts is O then -1 else Z.of_nat (length pts) - 2.
Proof.
  destruct (init_spec pts segments) as (tr & -> & _ & _).
  eexists. split; [reflexivity|]. apply alloc_N.
Qed.

(** C5 (as stated, refuted): over the thirteen coordinates of the toy set
    the freshly allocated array does not have [2 * 13] entries. *)
Lemma array_not_twice_size :
  length (tree (alloc toy_points)) <> (2 * length toy_points)%nat.
Proof. vm_compute. discriminate. Qed.

(** C5 (amended): for every coordinate list of size [n], the array that the
    constructor allocates before it inserts any segment has exactly
    [2n + 1] entries ([self.__total + 2] with [self.__total = 2n - 1]), all
    of them zero; inserting the segments does not change its length. *)
Theorem array_has_two_n_plus_one_zeros (pts : list Z) :
  __init__ pts [] = Ok (alloc pts) /\
  Z.of_nat (length (tree (alloc pts))) = 2 * Z.of_nat (length pts) + 1 /\
  Forall (fun c => c = 0) (tree (alloc pts)) /\
  forall segments, exists self,
    __init__ pts segments = Ok self /\
    Z.of_nat (length (tree self)) = 2 * Z.of_nat (length pts) + 1.
Proof.
  split; [reflexivity|]. split; [apply alloc_length|]. split.
  - unfold alloc. cbn [tree]. apply Forall_forall. intros c Hc.
    apply list_elem_of_In, repeat_spec in Hc. exact Hc.
  - intros segments. destruct (init_spec pts segments) as (tr & -> & Hlen & _).
    eexists. split; [reflexivity|]. exact Hlen.
Qed.

(** ** One compression for build and query *)

Lemma sortedb_sound (a : list Z) : sortedb a = true -> StronglySorted Z.le a.
Proof.
  intros H. apply Sorted_StronglySorted; [intros x y z; lia|].
  induction a as [|x rest IH]; [constructor|].
  destruct rest as [|y rest']; [repeat constructor|].
  cbn [sortedb] in H. apply andb_prop in H as [Hxy Hrest].
  constructor; [apply IH, Hrest|]. constructor. lia.
Qed.

(** C6: over a sorted coordinate list (distinct or not), the rank given to
    an interval endpoint by the constructor and the rank given to a query
    point by [stab_query] are one function, [compress]: the number of
    coordinates [<= x], plus one. *)
Theorem one_compression (pts : list Z) :
  StronglySorted Z.le pts ->
  forall self : t,
    points self = pts ->
    (forall s e : Z,
        insert_segment self (s, e) = insert self (compress pts s) (compress pts e)) /\
    (forall p : Z, leaf self p = compress pts p + N self) /\
    (forall x : Z,
        compress pts x = Z.of_nat (length (List.filter (fun c => c <=? x) pts)) + 1).
Proof.
  intros Hs self <-. repeat split.
  - intros s e. unfold insert_segment, compress.
    rewrite !bisect_right_rank by assumption. reflexivity.
  - intros p. unfold leaf, compress. rewrite bisect_right_rank by assumption. lia.
Qed.

Lemma one_compression_witness :
  StronglySorted Z.le toy_points /\
  leaf (alloc toy_points) 15 = compress toy_points 15 + N (alloc toy_points).
Proof.
  assert (Hs : StronglySorted Z.le toy_points) by (apply sortedb_sound; reflexivity).
  split; [exact Hs|].
  apply (one_compression toy_points Hs (alloc toy_points) eq_refl).
Defined.

(** ** Order of insertion *)

Lemma occ_perm (j : Z) (ns ms : list Z) : Permutation ns ms -> occ j ns = occ j ms.
Proof.
  intros H. unfold occ. f_equal.
  apply (proj1 (Permutation_count_occ Z.eq_dec ns ms) H).
Qed.

(** C8: for every coordinate list and every two orderings of the same
    multiset of segments, the constructor returns trees with the same
    node-count array, hence with the same answer to [stab_query] at every
    point. *)
Theorem order_independence (pts : list Z) (segs1 segs2 : list (Z * Z)) :
  Permutation segs1 segs2 ->
  exists self1 self2,
    __init__ pts segs1 = Ok self1 /\
    __init__ pts segs2 = Ok self2 /\
    tree self1 = tree self2 /\
    forall p : Z, stab_query self1 p = stab_query self2 p.
Proof.
  intros Hperm.
  destruct (init_spec pts segs1) as (tr1 & -> & Hlen1 & Hnth1).
  destruct (init_spec pts segs2) as (tr2 & -> & Hlen2 & Hnth2).
  assert (Heq : tr1 = tr2).
  { apply (nth_ext _ _ 0 0); [lia|]. intros j _.
    rewrite Hnth1, Hnth2. apply occ_perm, Permutation_flat_map, Hperm. }
  subst tr2. do 2 eexists. repeat split.
Qed.

Lemma order_independence_witness :
  Permutation [(3, 4); (6, 10); (20, 20)] [(20, 20); (3, 4); (6, 10)] /\
  exists self1 self2,
    __init__ [3; 4; 6; 10; 20] [(3, 4); (6, 10); (20, 20)] = Ok self1 /\
    __init__ [3; 4; 6; 10; 20] [(20, 20); (3, 4); (6, 10)] = Ok self2 /\
    tree self1 = tree self2 /\
    forall p : Z, stab_query self1 p = stab_query self2 p.
Proof.
  assert (Hp : Permutation [(3, 4); (6, 10); (20, 20)] [(20, 20); (3, 4); (6, 10)]).
  { symmetry. apply (Permutation_cons_app [(3, 4); (6, 10)] [] (20, 20)).
    apply Permutation_refl. }
  split; [exact Hp|].
  apply (order_independence [3; 4; 6; 10; 20] _ _ Hp).
Defined.

(** ** The ascent of [stab_query] *)

Lemma floor_log_cases (x : Z) :
  (x <= 0 /\ math.floor_log x = Raise ValueError) \/
  (0 < x /\ exists j, math.floor_log x = Ok j).
Proof.
  unfold math.floor_log. destruct (Z.leb_spec x 0); [left|right]; eauto with lia.
Qed.

Lemma floor_div_pow_cases (n b : Z) :
  math.floor_div_pow n b = Raise ValueError \/ exists q, math.floor_div_pow n b = Ok q.
Proof. unfold math.floor_div_pow. destruct (b <=? 0); eauto. Qed.

(** [complete] either raises the domain error of [math.log] or answers;
    it answers only at a positive node. *)
Lemma complete_cases (self : t) (node : Z) :
  complete self node = Raise ValueError \/
  (0 < node /\ exists c, complete self node = Ok c).
Proof.
  unfold complete, lowest_incomplete.
  destruct (floor_div_pow_cases (N self) (Z.land (N self) (- N self)))
    as [-> | (li & ->)]; cbn [bind]; [auto|].
  destruct (floor_log_cases li) as [(_ & ->) | (_ & a & ->)]; cbn [bind]; [auto|].
  destruct (floor_log_cases node) as [(_ & ->) | (Hpos & b & ->)]; cbn [bind]; eauto.
Qed.

Lemma getitem_cases (tr : list Z) (i : Z) :
  pylist.getitem tr i = Raise IndexError \/
  exists k, (k < length tr)%nat /\ pylist.getitem tr i = Ok (nth k tr 0).
Proof.
  unfold pylist.getitem. destruct (pylist.index (length tr) i) as [k|] eqn:Hk; [|auto].
  right. exists k. split; [eapply index_lt, Hk | reflexivity].
Qed.

(** One turn of the loop: it never runs out of fuel (it uses none); when it
    goes on, it goes on from [node / 2], a positive index strictly below
    [node]. *)
Lemma stab_step_cases (self : t) (node count : Z) :
  (exists e, stab_step self node count = Raise e) \/
  (exists count', stab_step self node count = Ok (Leave count')) \/
  (exists count', stab_step self node count = Ok (Again (node / 2) count') /\
                  0 < node / 2 < node).
Proof.
  unfold stab_step.
  destruct (complete_cases self node) as [-> | (Hpos & c & ->)]; cbn [bind]; [eauto|].
  destruct c; [eauto|].
  destruct (getitem_cases (tree self) node) as [-> | (k & _ & ->)]; cbn [bind]; [eauto|].
  destruct (Z.eqb_spec (node / 2) 0) as [Hz|Hz]; [eauto|].
  right. right. eexists. split; [reflexivity|].
  assert (0 <= node / 2) by (apply Z.div_pos; lia).
  assert (node / 2 < node) by (apply Z.div_lt; lia).
  lia.
Qed.

Lemma stab_loop_fuel (self : t) :
  forall (fuel fuel' : nat) (node count : Z),
    (0 < fuel)%nat -> node < 2 ^ Z.of_nat fuel ->
    (0 < fuel')%nat -> node < 2 ^ Z.of_nat fuel' ->
    stab_loop fuel self node count <> OutOfFuel /\
    stab_loop fuel self node count = stab_loop fuel' self node count.
Proof.
  induction fuel as [|fuel IH]; intros fuel' node count Hf Hn Hf' Hn'; [lia|].
  destruct fuel' as [|fuel']; [lia|]. cbn [stab_loop].
  destruct (stab_step_cases self node count)
    as [(e & ->) | [(c' & ->) | (c' & -> & Hhalf)]]; cbn [bind];
    [split; [discriminate | reflexivity] .. |].
  assert (Hdiv : forall k : nat, node < 2 ^ Z.of_nat (S k) ->
                                 (0 < k)%nat /\ node / 2 < 2 ^ Z.of_nat k).
  { intros k Hk. rewrite Nat2Z.inj_succ, Z.pow_succ_r in Hk by lia.
    assert (node / 2 < 2 ^ Z.of_nat k) by (apply Z.div_lt_upper_bound; lia).
    split; [|assumption].
    destruct k; [|lia]. change (2 ^ Z.of_nat 0) with 1 in *. lia. }
  destruct (Hdiv fuel Hn), (Hdiv fuel' Hn'). apply IH; assumption.
Qed.

Lemma stab_query_fuel (node : Z) :
  (0 < S (Z.to_nat node))%nat /\ node < 2 ^ Z.of_nat (S (Z.to_nat node)).
Proof.
  split; [lia|]. destruct (Z.leb_spec node 0) as [H|H].
  - assert (0 < 2 ^ Z.of_nat (S (Z.to_nat node))) by (apply Z.pow_pos_nonneg; lia). lia.
  - pose proof (Z.pow_gt_lin_r 2 (Z.of_nat (S (Z.to_nat node))) ltac:(lia) ltac:(lia)).
    lia.
Qed.

(** C10: for every tree and every query point, the ascent loop of
    [stab_query] terminates.  Whenever a turn of the loop goes on, it goes
    on from [node / 2], which is positive and strictly below [node] (the
    loop is left as soon as the halved index is 0); so [stab_query] never
    runs out of fuel, and its outcome is already reached by any loop that is
    given more than [log2 leaf] turns. *)
Theorem ascent_terminates (self : t) (point : Z) :
  (forall node count node' count',
      stab_step self node count = Ok (Again node' count') ->
      node' = node / 2 /\ 0 < node' < node) /\
  stab_query self point <> OutOfFuel /\
  (forall fuel : nat,
      Z.log2 (leaf self point) < Z.of_nat fuel ->
      stab_loop fuel self (leaf self point) 0 = stab_query self point).
Proof.
  split; [|split].
  - intros node count node' count' H.
    destruct (stab_step_cases self node count)
      as [(e & He) | [(c' & He) | (c' & He & Hhalf)]]; rewrite He in H;
      try discriminate.
    injection H as <- _. auto.
  - unfold stab_query.
    destruct (stab_query_fuel (leaf self point)) as [Hf Hn].
    apply (stab_loop_fuel self _ _ _ 0 Hf Hn Hf Hn).
  - intros fuel Hlog. unfold stab_query.
    destruct (stab_query_fuel (leaf self point)) as [Hf Hn].
    assert (Hfuel : (0 < fuel)%nat /\ leaf self point < 2 ^ Z.of_nat fuel).
    { pose proof (Z.log2_nonneg (leaf self point)). split; [lia|].
      destruct (Z.leb_spec (leaf self point) 0) as [H0|H0].
      - assert (0 < 2 ^ Z.of_nat fuel) by (apply Z.pow_pos_nonneg; lia). lia.
      - apply Z.log2_lt_pow2; lia. }
    destruct Hfuel as [Hf' Hn'].
    apply (stab_loop_fuel self _ _ _ 0 Hf' Hn' Hf Hn).
Qed.

Lemma ascent_terminates_witness :
  exists self,
    __init__ toy_points toy_segments = Ok self /\
    Z.log2 (leaf self 15) < Z.of_nat 5 /\
    stab_loop 5 self (leaf self 15) 0 = stab_query self 15.
Proof.
  eexists. split; [vm_compute; reflexivity|].
  match goal with |- _ /\ stab_loop _ ?s _ _ = _ =>
    pose proof (ascent_terminates s 15) as (_ & _ & H) end.
  split; [vm_compute; reflexivity|]. apply H. vm_compute. reflexivity.
Defined.

(** ** Counts are never negative *)

Lemma stab_loop_nonneg (self : t) :
  Forall (fun c => 0 <= c) (tree self) ->
  forall (fuel : nat) (node count v : Z),
    0 <= count -> stab_loop fuel self node count = Ok v -> 0 <= v.
Proof.
  intros Hall. induction fuel as [|fuel IH]; intros node count v Hc H;
    cbn [stab_loop] in H; [discriminate|].
  unfold stab_step in H.
  destruct (complete self node) as [[|]| |]; cbn [bind] in H; try discriminate.
  - injection H as <-. exact Hc.
  - destruct (getitem_cases (tree self) node) as [Hg | (k & Hk & Hg)];
      rewrite Hg in H; cbn [bind] in H; [discriminate|].
    assert (0 <= nth k (tree self) 0).
    { exact (proj1 (Forall_nth _ 0 (tree self)) Hall k Hk). }
    destruct (node / 2 =? 0); cbn [bind] in H.
    + injection H as <-. lia.
    + apply IH in H; [exact H | lia].
Qed.

(** C9: for every coordinate list and every list of segments, the
    constructor returns a tree whose node-count array has no negative entry
    ([insert] only ever adds one), and every count that [stab_query]
    returns on that tree, at any point, is non-negative. *)
Theorem counts_nonnegative (pts : list Z) (segments : list (Z * Z)) :
  exists self,
    __init__ pts segments = Ok self /\
    Forall (fun c => 0 <= c) (tree self) /\
    forall p v : Z, stab_query self p = Ok v -> 0 <= v.
Proof.
  destruct (init_spec pts segments) as (tr & -> & Hlen & Hnth).
  eexists. split; [reflexivity|].
  assert (Hall : Forall (fun c => 0 <= c) (tree (set_tree (alloc pts) tr))).
  { cbn [tree set_tree]. apply Forall_forall. intros c Hc.
    apply list_elem_of_In, (In_nth _ _ 0) in Hc as (j & _ & <-).
    rewrite Hnth. apply occ_nonneg. }
  split; [exact Hall|].
  intros p v H. unfold stab_query in H.
  eapply stab_loop_nonneg; [exact Hall | | exact H]. lia.
Qed.

Lemma counts_nonnegative_witness :
  exists self,
    __init__ toy_points toy_segments = Ok self /\
    stab_query self 3 = Ok 6 /\ 0 <= 6.
Proof.
  destruct (counts_nonnegative toy_points toy_segments) as (self & Hinit & _ & Hq).
  exists self. split; [exact Hinit|].
  assert (H3 : stab_query self 3 = Ok 6).
  { vm_compute in Hinit. injection Hinit as <-. vm_compute. reflexivity. }
  split; [exact H3 | exact (Hq 3 6 H3)].
Defined.

(** ** Ranks and order *)

Lemma rank_le_cons (d : Z) (a : list Z) (x : Z) :
  rank_le (d :: a) x = (if d <=? x then 1 else 0) + rank_le a x.
Proof. unfold rank_le. simpl. destruct (d <=? x); simpl length; lia. Qed.

Lemma rank_le_mono (a : list Z) (x y : Z) : x <= y -> rank_le a x <= rank_le a y.
Proof.
  intros Hxy. induction a as [|d a IH]; [reflexivity|].
  rewrite !rank_le_cons. destruct (Z.leb_spec d x), (Z.leb_spec d y); lia.
Qed.

(** A coordinate lying in [(x, y]] separates the ranks of [x] and [y]. *)
Lemma rank_le_strict (a : list Z) (x y c : Z) :
  In c a -> x < c <= y -> rank_le a x < rank_le a y.
Proof.
  intros Hin Hc. induction a as [|d a IH]; [contradiction|].
  rewrite !rank_le_cons. pose proof (rank_le_mono a x y ltac:(lia)).
  destruct Hin as [-> | Hin].
  - destruct (Z.leb_spec c x), (Z.leb_spec c y); lia.
  - specialize (IH Hin). destruct (Z.leb_spec d x), (Z.leb_spec d y); lia.
Qed.

Lemma rank_le_pos (a : list Z) (c : Z) : In c a -> 1 <= rank_le a c.
Proof.
  intros Hin. unfold rank_le.
  assert (In c (List.filter (fun d => d <=? c) a)).
  { apply filter_In. split; [assumption|]. apply Z.leb_le. lia. }
  destruct (List.filter (fun d => d <=? c) a); simpl in *; [contradiction|lia].
Qed.

Lemma rank_le_bound (a : list Z) (x : Z) : 0 <= rank_le a x <= Z.of_nat (length a).
Proof.
  unfold rank_le. pose proof (filter_length_le (fun c => c <=? x) a). lia.
Qed.

(** From a coordinate on the left, ranks compare as the values do. *)
Lemma rank_le_from_coordinate (a : list Z) (c x : Z) :
  In c a -> (rank_le a c <= rank_le a x <-> c <= x).
Proof.
  intros Hin. split.
  - intros H. destruct (Z.le_gt_cases c x) as [|Hlt]; [assumption|].
    pose proof (rank_le_strict a x c c Hin ltac:(lia)). lia.
  - apply rank_le_mono.
Qed.

(** ** Inverted intervals *)

Lemma insert_loop_empty (fuel : nat) (tr : list Z) (l r : Z) :
  r < l -> insert_loop (S fuel) tr l r = Ok tr.
Proof. intros H. cbn [insert_loop]. destruct (Z.leb_spec l r); [lia|reflexivity]. Qed.

Lemma insert_segment_inverted (self : t) (s e c : Z) :
  StronglySorted Z.le (points self) ->
  In c (points self) -> e < c <= s ->
  insert_segment self (s, e) = Ok self.
Proof.
  intros Hs Hin Hc. unfold insert_segment, insert.
  rewrite !bisect_right_rank by assumption.
  pose proof (rank_le_strict (points self) e s c Hin Hc).
  unfold insert_fuel. rewrite insert_loop_empty by lia.
  cbn [bind]. rewrite set_tree_id. reflexivity.
Qed.

Lemma insert_all_app (segs1 segs2 : list (Z * Z)) :
  forall self : t,
    insert_all self (segs1 ++ segs2) =
    do self' <- insert_all self segs1; insert_all self' segs2.
Proof.
  induction segs1 as [|seg rest IH]; intros self; cbn [insert_all app bind];
    [reflexivity|].
  destruct (insert_segment self seg); cbn [bind]; auto.
Qed.

(** C7 (as stated, refuted): over the coordinates 1, 3, 10, 20, 30 the
    inverted interval (5, 4) has both ends between the same two
    coordinates; inserting it changes the array and raises the answer at
    point 3 from 0 to 1. *)
Lemma inverted_segment_counted :
  exists self self',
    __init__ [1; 3; 10; 20; 30] [] = Ok self /\
    insert_segment self (5, 4) = Ok self' /\
    tree self' <> tree self /\
    stab_query self 3 = Ok 0 /\
    stab_query self' 3 = Ok 1.
Proof.
  do 2 eexists. split; [vm_compute; reflexivity|].
  split; [vm_compute; reflexivity|].
  split; [vm_compute; discriminate|].
  split; vm_compute; reflexivity.
Qed.

(** C7 (amended): over a sorted coordinate list, an inverted interval
    ([start > end]) that has a coordinate [c] with [end < c <= start] (as it
    does when [start] is itself a coordinate) is inserted with no change to
    the tree; a build with it and a build without it return the same tree,
    so it adds nothing to [stab_query] at any point. *)
Theorem inverted_segment_is_noop (pts : list Z) (s e c : Z) :
  StronglySorted Z.le pts ->
  In c pts -> e < c <= s ->
  (forall self : t, points self = pts -> insert_segment self (s, e) = Ok self) /\
  (forall segs1 segs2 : list (Z * Z),
      __init__ pts (segs1 ++ (s, e) :: segs2) = __init__ pts (segs1 ++ segs2)).
Proof.
  intros Hs Hin Hc.
  assert (Hone : forall self : t, points self = pts ->
                                  insert_segment self (s, e) = Ok self).
  { intros self <-. eapply insert_segment_inverted; eassumption. }
  split; [exact Hone|].
  intros segs1 segs2. unfold __init__. rewrite !insert_all_app.
  destruct (insert_all_spec segs1 (alloc pts) (alloc_shaped pts)) as (tr & -> & _ & _).
  cbn [bind insert_all]. rewrite Hone by reflexivity. reflexivity.
Qed.

Lemma inverted_segment_is_noop_witness :
  StronglySorted Z.le toy_points /\ In 20 toy_points /\ 10 < 20 <= 20 /\
  __init__ toy_points ([(3, 4)] ++ (20, 10) :: [(6, 50)]) =
  __init__ toy_points ([(3, 4)] ++ [(6, 50)]).
Proof.
  assert (Hs : StronglySorted Z.le toy_points) by (apply sortedb_sound; reflexivity).
  assert (Hin : In 20 toy_points) by (simpl; tauto).
  assert (Hc : 10 < 20 <= 20) by lia.
  split; [exact Hs|]. split; [exact Hin|]. split; [exact Hc|].
  apply (inverted_segment_is_noop toy_points 20 10 20 Hs Hin Hc).
Defined.

(** ** The count invariant *)

Lemma sum_occ_nil (js : list Z) : sum_occ js [] = 0.
Proof. induction js as [|j js IH]; simpl; [reflexivity|]. rewrite IH, occ_nil. lia. Qed.

Lemma sum_occ_app (js ns ms : list Z) :
  sum_occ js (ns ++ ms) = sum_occ js ns + sum_occ js ms.
Proof.
  induction js as [|j js IH]; simpl; [reflexivity|]. rewrite IH, occ_app. lia.
Qed.

Lemma sum_occ_apart (js ns : list Z) :
  (forall j, In j js -> ~ In j ns) -> sum_occ js ns = 0.
Proof.
  induction js as [|j js IH]; intros H; simpl; [reflexivity|].
  rewrite occ_absent by (apply H; simpl; auto).
  rewrite IH; [reflexivity|]. intros i Hi. apply H. simpl. auto.
Qed.

(** The nodes on the way up from [a] lie in [1 .. a]. *)
Lemma path_range (fuel : nat) :
  forall a j : Z, In j (path fuel a) -> 1 <= j <= a.
Proof.
  induction fuel as [|fuel IH]; intros a j Hj; cbn [path] in Hj; [contradiction|].
  destruct (Z.leb_spec a 0) as [H0|H0]; [contradiction|].
  destruct Hj as [<- | Hj]; [lia|].
  apply IH in Hj. assert (a / 2 < a) by (apply Z.div_lt; lia). lia.
Qed.

(** The nodes incremented for boundaries [l >= 1] and [r] lie in [1 .. r]. *)
Lemma insert_nodes_range (fuel : nat) :
  forall l r j : Z, 1 <= l -> In j (insert_nodes fuel l r) -> 1 <= j <= r.
Proof.
  induction fuel as [|fuel IH]; intros l r j Hl Hj; cbn [insert_nodes] in Hj;
    [contradiction|].
  destruct (Z.leb_spec l r) as [Hlr|Hlr]; [|contradiction].
  apply in_app_or in Hj as [Hj | Hj].
  { destruct (l mod 2 =? 1); simpl in Hj; [|contradiction]. lia. }
  apply in_app_or in Hj as [Hj | Hj].
  { destruct (r mod 2 =? 0); simpl in Hj; [|contradiction]. lia. }
  apply IH in Hj.
  - assert ((r - 1) / 2 <= r) by (apply Z.div_le_upper_bound; lia). lia.
  - apply Z.div_le_lower_bound; lia.
Qed.

(** The heart of the structure.  Take boundaries [l], [r] and a node [a]
    of one generation, that is, with [r <= 2a] and [a <= 2l - 1] (leaves
    [n .. 2n - 1] are such).  Then, of the nodes that the loop of [insert]
    increments for [l .. r], exactly one lies on the way from [a] to the
    root when [l <= a <= r], and none otherwise. *)
Lemma cover_one :
  forall (fuel' : nat) (l r : Z) (fuel : nat) (a : Z),
    r <= 2 * a -> a <= 2 * l - 1 ->
    Z.max 0 (r - l + 1) < Z.of_nat fuel' ->
    a < Z.of_nat fuel ->
    sum_occ (path fuel a) (insert_nodes fuel' l r) =
    if (l <=? a) && (a <=? r) then 1 else 0.
Proof.
  induction fuel' as [|fuel' IH]; intros l r fuel a Hr Ha Hf' Hf; [lia|].
  cbn [insert_nodes].
  destruct (Z.leb_spec l r) as [Hlr|Hlr].
  2:{ rewrite sum_occ_nil.
      destruct (Z.leb_spec l a), (Z.leb_spec a r); simpl; lia. }
  destruct fuel as [|fuel]; cbn [path].
  { simpl. destruct (Z.leb_spec l a), (Z.leb_spec a r); simpl; lia. }
  destruct (Z.leb_spec a 0) as [Ha0|Ha0].
  { simpl. destruct (Z.leb_spec l a), (Z.leb_spec a r); simpl; lia. }
  set (l' := (l + 1) / 2). set (r' := (r - 1) / 2).
  assert (Hl' : 2 * l' = l + l mod 2).
  { unfold l'. Z.div_mod_to_equations. lia. }
  assert (Hr' : 2 * r' = r - 1 - (r - 1) mod 2).
  { unfold r'. Z.div_mod_to_equations. lia. }
  assert (Hrm : (r - 1) mod 2 = 1 - r mod 2).
  { Z.div_mod_to_equations. lia. }
  assert (Hlm : 0 <= l mod 2 < 2) by (apply Z.mod_pos_bound; lia).
  assert (Hrm' : 0 <= r mod 2 < 2) by (apply Z.mod_pos_bound; lia).
  assert (Ha2 : 2 * (a / 2) = a - a mod 2 /\ 0 <= a mod 2 < 2).
  { Z.div_mod_to_equations. lia. }
  destruct Ha2 as [Ha2 Ham].
  cbn [sum_occ].
  (* the node [a] itself is none of the nodes incremented further up *)
  assert (Hrest_a : occ a (insert_nodes fuel' l' r') = 0).
  { apply occ_absent. intros Hin.
    apply insert_nodes_range in Hin; lia. }
  (* the ancestors of [a] are none of the two nodes incremented here *)
  assert (Hup : forall ns, (forall j, In j ns -> l <= j) ->
                           sum_occ (path fuel (a / 2)) ns = 0).
  { intros ns Hns. apply sum_occ_apart. intros j Hj Hin.
    apply path_range in Hj. apply Hns in Hin. lia. }
  rewrite !occ_app, !sum_occ_app, Hrest_a.
  rewrite (Hup (if l mod 2 =? 1 then [l] else [])).
  2:{ intros j Hj. destruct (l mod 2 =? 1); simpl in Hj; [lia|contradiction]. }
  rewrite (Hup (if r mod 2 =? 0 then [r] else [])).
  2:{ intros j Hj. destruct (r mod 2 =? 0); simpl in Hj; [lia|contradiction]. }
  rewrite (IH l' r' fuel (a / 2)) by lia.
  destruct (Z.eqb_spec (l mod 2) 1) as [Hlo|Hlo],
           (Z.eqb_spec (r mod 2) 0) as [Hre|Hre];
    rewrite ?occ_cons, ?occ_nil;
    repeat case_decide;
    destruct (Z.leb_spec l' (a / 2)), (Z.leb_spec (a / 2) r'),
             (Z.leb_spec l a), (Z.leb_spec a r); simpl; lia.
Qed.

(** Reading the array along a way up, when the array counts increments. *)
Lemma path_sum_occ (tr ns js : list Z) :
  (forall j : nat, nth j tr 0 = occ (Z.of_nat j) ns) ->
  (forall j, In j js -> 0 <= j) ->
  path_sum tr js = sum_occ js ns.
Proof.
  intros Hnth. induction js as [|j js IH]; intros Hpos; simpl; [reflexivity|].
  rewrite Hnth, Z2Nat.id by (apply Hpos; simpl; auto).
  rewrite IH; [reflexivity|]. intros i Hi. apply Hpos. simpl. auto.
Qed.

(** When [complete] answers [False] all the way, the loop of [stab_query]
    sums the array from the leaf to the root. *)
Lemma stab_loop_full (self : t) :
  forall (fuel : nat) (node count : Z),
    0 < node < Z.of_nat (length (tree self)) ->
    node < Z.of_nat fuel ->
    (forall j, In j (path fuel node) -> complete self j = Ok false) ->
    stab_loop fuel self node count =
    Ok (count + path_sum (tree self) (path fuel node)).
Proof.
  induction fuel as [|fuel IH]; intros node count Hn Hf Hc; [lia|].
  cbn [stab_loop path] in *.
  destruct (Z.leb_spec node 0) as [H0|H0]; [lia|].
  unfold stab_step. rewrite (Hc node) by (simpl; auto). cbn [bind].
  unfold pylist.getitem. rewrite index_in_range by lia. cbn [bind path_sum].
  assert (0 <= node / 2) by (apply Z.div_pos; lia).
  assert (node / 2 < node) by (apply Z.div_lt; lia).
  destruct (Z.eqb_spec (node / 2) 0) as [Hz|Hz]; cbn [bind].
  - rewrite Hz. destruct fuel; simpl; f_equal; lia.
  - rewrite IH; [f_equal; lia | lia | lia |].
    intros j Hj. apply Hc. simpl. auto.
Qed.

Lemma stabbed_cons (p : Z) (seg : Z * Z) (rest : list (Z * Z)) :
  stabbed p (seg :: rest) = (if covers p seg then 1 else 0) + stabbed p rest.
Proof. unfold stabbed. simpl. destruct (covers p seg); simpl length; lia. Qed.

(** One segment whose start is a coordinate, seen from the leaf of a point
    that is a coordinate: it leaves one increment on the way up exactly
    when it contains the point. *)
Lemma seg_on_path (pts : list Z) (n : Z) (seg : Z * Z) (p : Z) (fuel : nat) :
  StronglySorted Z.le pts ->
  In (fst seg) pts -> In p pts ->
  n = Z.of_nat (length pts) - 2 ->
  bisect.bisect_right pts p + n + 1 < Z.of_nat fuel ->
  sum_occ (path fuel (bisect.bisect_right pts p + n + 1)) (seg_nodes n pts seg) =
  if covers p seg then 1 else 0.
Proof.
  intros Hs Hstart Hp -> Hfuel. destruct seg as [s e]. cbn [fst snd] in *.
  unfold seg_nodes, covers. cbn [fst snd].
  rewrite !bisect_right_rank in * by assumption.
  pose proof (rank_le_pos pts s Hstart).
  pose proof (rank_le_pos pts p Hp).
  pose proof (rank_le_bound pts s). pose proof (rank_le_bound pts e).
  pose proof (rank_le_bound pts p).
  rewrite cover_one; [| lia | lia | apply insert_fuel_enough | lia].
  pose proof (rank_le_from_coordinate pts s p Hstart).
  pose proof (rank_le_from_coordinate pts p e Hp).
  destruct (Z.leb_spec s p), (Z.leb_spec p e);
    destruct (Z.leb_spec (rank_le pts s + 1 + (Z.of_nat (length pts) - 2))
                         (rank_le pts p + (Z.of_nat (length pts) - 2) + 1)),
             (Z.leb_spec (rank_le pts p + (Z.of_nat (length pts) - 2) + 1)
                         (rank_le pts e + 1 + (Z.of_nat (length pts) - 2)));
    simpl; lia.
Qed.

Lemma segs_on_path (pts : list Z) (n : Z) (p : Z) (fuel : nat) :
  StronglySorted Z.le pts ->
  In p pts ->
  n = Z.of_nat (length pts) - 2 ->
  bisect.bisect_right pts p + n + 1 < Z.of_nat fuel ->
  forall segments : list (Z * Z),
    (forall seg, In seg segments -> In (fst seg) pts) ->
    sum_occ (path fuel (bisect.bisect_right pts p + n + 1))
            (flat_map (seg_nodes n pts) segments) =
    stabbed p segments.
Proof.
  intros Hs Hp Hn Hfuel. induction segments as [|seg rest IH]; intros Hstart.
  - cbn [flat_map]. apply sum_occ_nil.
  - cbn [flat_map]. rewrite sum_occ_app, stabbed_cons, IH.
    + rewrite seg_on_path; auto. apply Hstart. simpl. auto.
    + intros seg' Hin. apply Hstart. simpl. auto.
Qed.

(** Between coordinates: the coordinates 3, 4, 6, 10, 20 are the endpoints
    of the intervals (3, 4), (6, 10), (20, 20).  No interval contains the
    point 5, yet [stab_query(5)] returns 1: the point 5 has the rank of the
    coordinate 4, which ends (3, 4). *)
Lemma point_between_coordinates :
  exists self,
    __init__ [3; 4; 6; 10; 20] [(3, 4); (6, 10); (20, 20)] = Ok self /\
    stab_query self 5 = Ok 1 /\
    stabbed 5 [(3, 4); (6, 10); (20, 20)] = 0.
Proof.
  eexists. split; [vm_compute; reflexivity|]. split; vm_compute; reflexivity.
Qed.

(** What a full ascent returns: take a sorted coordinate list, any list of
    intervals whose starts are coordinates (as they are when the
    coordinates are collected from the endpoints), and a query point [p]
    that is itself a coordinate.  The constructor returns a tree, and
    whenever the ascent of [stab_query(p)] is not cut short, that is,
    [complete] answers [False] at every node from the leaf of [p] to the
    root, [stab_query(p)] returns the number of intervals [(start, end)]
    with [start <= p <= end], both ends included. *)
Lemma count_invariant_on_coordinates
    (pts : list Z) (segments : list (Z * Z)) (p : Z) :
  StronglySorted Z.le pts ->
  (forall seg, In seg segments -> In (fst seg) pts) ->
  In p pts ->
  exists self,
    __init__ pts segments = Ok self /\
    ((forall j, In j (ancestors (leaf self p)) -> complete self j = Ok false) ->
     stab_query self p = Ok (stabbed p segments)).
Proof.
  intros Hs Hstart Hp.
  destruct (init_spec pts segments) as (tr & -> & Hlen & Hnth).
  eexists. split; [reflexivity|]. intros Hup.
  set (self := set_tree (alloc pts) tr) in *.
  assert (HN : N self = Z.of_nat (length pts) - 2).
  { unfold self. cbn [N set_tree]. rewrite alloc_N.
    destruct pts; [contradiction | reflexivity]. }
  assert (Hleaf : leaf self p = bisect.bisect_right pts p + N self + 1) by reflexivity.
  pose proof (rank_le_pos pts p Hp) as Hrank.
  pose proof (rank_le_bound pts p) as Hbound.
  rewrite <- (bisect_right_rank pts p Hs) in Hrank, Hbound.
  unfold stab_query, ancestors in *.
  rewrite stab_loop_full; [| cbn [tree self set_tree]; lia | lia | exact Hup].
  f_equal. cbn [tree self set_tree].
  rewrite (path_sum_occ tr (flat_map (seg_nodes (N (alloc pts)) pts) segments)).
  - rewrite Hleaf. change (N (alloc pts)) with (N self).
    rewrite segs_on_path; auto; lia.
  - exact Hnth.
  - intros j Hj. apply path_range in Hj. lia.
Qed.

Lemma count_invariant_on_coordinates_witness :
  exists self,
    __init__ toy_points toy_segments = Ok self /\
    stab_query self 3 = Ok (stabbed 3 toy_segments).
Proof.
  assert (Hs : StronglySorted Z.le toy_points) by (apply sortedb_sound; reflexivity).
  assert (Hstart : forall seg, In seg toy_segments -> In (fst seg) toy_points).
  { intros seg Hin. simpl in Hin.
    repeat (destruct Hin as [<- | Hin]; [simpl; tauto|]). contradiction. }
  assert (Hp : In 3 toy_points) by (simpl; tauto).
  destruct (count_invariant_on_coordinates toy_points toy_segments 3 Hs Hstart Hp)
    as (self & Hinit & Hq).
  exists self. split; [exact Hinit|]. apply Hq.
  vm_compute in Hinit. injection Hinit as <-.
  intros j Hj. vm_compute in Hj.
  repeat (destruct Hj as [<- | Hj]; [vm_compute; reflexivity|]). contradiction.
Defined.

(** C1 (the code fails the claim): [stab_query] does not return the number
    of intervals that contain the point, at points that are coordinates.

    Over the thirteen coordinates and the nine intervals of [test_toy_set],
    two intervals contain the coordinate 20, (10, 20) and (6, 50).  The sum
    of the array from the leaf of 20 (node 20) to the root is 2, as the
    comment of [stab_query] has it; but [complete] answers [True] at node
    10, where (6, 50) is counted, the loop is left there, and
    [stab_query(20)] returns 1.  In the same way [stab_query(50)] returns 0
    where (6, 50) contains 50.

    The same happens when the coordinates are exactly the endpoints of the
    intervals and the tree is built by [main]: the seven reads of
    [toy_reads] have the thirteen coordinates as their starts and ends, two
    of them lie over 20, and the table of [main] gives 20 the coverage
    1. *)
Theorem stab_query_stops_below_a_count :
  (exists self,
     __init__ toy_points toy_segments = Ok self /\
     stabbed 20 toy_segments = 2 /\
     ancestors (leaf self 20) = [20; 10; 5; 2; 1] /\
     path_sum (tree self) (ancestors (leaf self 20)) = 2 /\
     complete self 10 = Ok true /\
     nth 10 (tree self) 0 = 1 /\
     stab_query self 20 = Ok 1 /\
     stabbed 50 toy_segments = 1 /\
     stab_query self 50 = Ok 0) /\
  fst (load_points toy_reads no_files) = Ok toy_points /\
  reads_over 20 toy_reads = 2 /\
  fst (main toy_reads [20] no_files) =
    Ok [Header "position" "coverage"; Locus 20 1].
Proof.
  split.
  - eexists. split; [vm_compute; reflexivity|]. repeat split.
  - repeat split; vm_compute; reflexivity.
Qed.

(** ** The toy set of the test suite *)

Lemma rank_le_app (a b : list Z) (x : Z) :
  rank_le (a ++ b) x = rank_le a x + rank_le b x.
Proof.
  induction a as [|d a IH]; [reflexivity|].
  cbn [app]. rewrite !rank_le_cons, IH. lia.
Qed.

Lemma rank_le_perm (a b : list Z) (x : Z) :
  Permutation a b -> rank_le a x = rank_le b x.
Proof.
  induction 1 as [|d a b _ IH|d d' a|a b c _ IH1 _ IH2];
    rewrite ?rank_le_cons; lia.
Qed.

Lemma rank_le_none (a : list Z) (x : Z) :
  Forall (fun c => x < c) a -> rank_le a x = 0.
Proof.
  induction 1 as [|d a Hd _ IH]; [reflexivity|].
  rewrite rank_le_cons, IH. destruct (Z.leb_spec d x); lia.
Qed.

Lemma rank_le_all (a : list Z) (x : Z) :
  Forall (fun c => c <= x) a -> rank_le a x = Z.of_nat (length a).
Proof.
  induction 1 as [|d a Hd _ IH]; [reflexivity|].
  rewrite rank_le_cons, IH. cbn [length]. destruct (Z.leb_spec d x); lia.
Qed.

(** Among distinct values that are all at least [x], at most one is [x]. *)
Lemma rank_le_at_min (a : list Z) (x : Z) :
  List.NoDup a -> Forall (fun c => x <= c) a -> 0 <= rank_le a x <= 1.
Proof.
  induction 1 as [|d a Hd Hnd IH]; intros Hall; [unfold rank_le; simpl; lia|].
  apply Forall_cons_1 in Hall as [Hx Hall]. rewrite rank_le_cons.
  destruct (Z.leb_spec d x) as [Hdx|Hdx]; [|specialize (IH Hall); lia].
  assert (d = x) by lia. subst d.
  rewrite rank_le_none; [lia|].
  rewrite Forall_forall in *. intros c Hc.
  assert (c <> x) by (intros ->; apply Hd, list_elem_of_In, Hc).
  specialize (Hall c Hc). lia.
Qed.

Lemma insert_keeps (self self' : t) (a b : Z) :
  insert self a b = Ok self' -> points self' = points self /\ N self' = N self.
Proof.
  unfold insert. destruct (insert_loop _ _ _ _); cbn [bind]; try discriminate.
  intros [= <-]. split; reflexivity.
Qed.

Lemma insert_ranked_keeps (ranks : list (Z * Z)) :
  forall self self' : t,
    insert_ranked self ranks = Ok self' ->
    points self' = points self /\ N self' = N self.
Proof.
  induction ranks as [|lr rest IH]; intros self self' H; cbn [insert_ranked] in H.
  - injection H as <-. split; reflexivity.
  - destruct (insert self (fst lr) (snd lr)) as [self1| |] eqn:E; cbn [bind] in H;
      try discriminate.
    destruct (IH _ _ H) as [-> ->]. eapply insert_keeps, E.
Qed.

Lemma insert_all_ranked (segments : list (Z * Z)) :
  forall self : t,
    insert_all self segments =
    insert_ranked self (map (ranked (points self)) segments).
Proof.
  induction segments as [|[s e] rest IH]; intros self;
    cbn [insert_all insert_ranked map]; [reflexivity|].
  unfold insert_segment, ranked at 1 2. cbn [fst snd].
  destruct (insert self _ _) as [self1| |] eqn:E; cbn [bind]; try reflexivity.
  rewrite IH. apply insert_keeps in E as [-> _]. reflexivity.
Qed.

(** Segments that run backwards between coordinates leave the tree as it
    is. *)
Lemma insert_all_inverted (pts : list Z) (filler : list (Z * Z)) :
  StronglySorted Z.le pts ->
  Forall (fun seg => In (fst seg) pts /\ snd seg < fst seg) filler ->
  forall self : t, points self = pts -> insert_all self filler = Ok self.
Proof.
  intros Hs. induction 1 as [|[s e] rest [Hin Hlt] _ IH]; intros self Hpts;
    cbn [insert_all]; [reflexivity|].
  cbn [fst snd] in *. subst pts.
  rewrite (insert_segment_inverted self s e s) by (auto; lia).
  cbn [bind]. apply IH. reflexivity.
Qed.

(** The run of the test on the tree of 200027 nodes. *)
Lemma toy_run_answers (pts : list Z) :
  toy_run (toy_alloc pts) = Ok [2; 6; 5; 1; 2; 1; 1].
Proof. vm_compute. reflexivity. Qed.

Lemma bind_ok {A B : Type} (a : A) (k : A -> result B) : bind (Ok a) k = k a.
Proof. reflexivity. Qed.

Lemma toy_run_unfold (self0 : t) :
  toy_run self0 =
  do self <- insert_ranked self0 toy_ranks;
  do a <- query_at self (7 + (toy_size - 2) + 1);
  do b <- query_at self (1 + (toy_size - 2) + 1);
  do c <- query_at self (2 + (toy_size - 2) + 1);
  do d <- query_at self (4 + (toy_size - 2) + 1);
  do e <- query_at self (3 + (toy_size - 2) + 1);
  do f <- query_at self (12 + (toy_size - 2) + 1);
  do g <- query_at self (13 + (toy_size - 2) + 1);
  Ok [a; b; c; d; e; f; g].
Proof. reflexivity. Qed.

Lemma toy_queries (pts : list Z) (self : t) :
  insert_ranked (toy_alloc pts) toy_ranks = Ok self ->
  query_at self (7 + (toy_size - 2) + 1) = Ok 2 /\
  query_at self (1 + (toy_size - 2) + 1) = Ok 6 /\
  query_at self (2 + (toy_size - 2) + 1) = Ok 5 /\
  query_at self (4 + (toy_size - 2) + 1) = Ok 1 /\
  query_at self (3 + (toy_size - 2) + 1) = Ok 2 /\
  query_at self (12 + (toy_size - 2) + 1) = Ok 1 /\
  query_at self (13 + (toy_size - 2) + 1) = Ok 1.
Proof.
  intros Hbuild. pose proof (toy_run_answers pts) as H.
  rewrite toy_run_unfold, Hbuild, bind_ok in H.
  repeat match type of H with
         | bind ?q _ = _ =>
             destruct q as [?v| |];
             [ rewrite bind_ok in H | exfalso; discriminate H | exfalso; discriminate H ]
         end.
  injection H as -> -> -> -> -> -> ->. repeat split.
Qed.

(** C2: the reference input of [test_toy_set].  Whatever sample of 100000
    distinct points of [range(10000, 1000000)] is drawn, whatever inverted
    filler segments are made of sample points, once the thirteen toy
    coordinates are added and the coordinates sorted, and the nine toy
    intervals are appended to the filler, the tree that the constructor
    returns answers [stab_query(15) = 2], [stab_query(3) = 6],
    [stab_query(4) = 5], [stab_query(7) = 1], [stab_query(6) = 2] and
    [stab_query(10000) = 1]. *)
Theorem toy_set_answers (sample pts : list Z) (filler : list (Z * Z)) :
  Z.of_nat (length sample) = toy_sample_size ->
  List.NoDup sample ->
  Forall (fun x => 10000 <= x < 1000000) sample ->
  Forall (fun seg => In (fst seg) sample /\ In (snd seg) sample /\
                     snd seg < fst seg) filler ->
  Permutation pts (sample ++ toy_points) ->
  StronglySorted Z.le pts ->
  exists self,
    __init__ pts (filler ++ toy_segments) = Ok self /\
    stab_query self 15 = Ok 2 /\
    stab_query self 3 = Ok 6 /\
    stab_query self 4 = Ok 5 /\
    stab_query self 7 = Ok 1 /\
    stab_query self 6 = Ok 2 /\
    stab_query self 10000 = Ok 1.
Proof.
  intros Hlen Hnd Hrange Hfill Hperm Hs.
  assert (Hn : Z.of_nat (length pts) = toy_size).
  { rewrite (Permutation_length Hperm), length_app. unfold toy_size.
    cbn [length toy_points]. lia. }
  (* the ranks of the values that matter *)
  assert (Hrank : forall x, bisect.bisect_right pts x =
                            rank_le sample x + rank_le toy_points x).
  { intros x. rewrite bisect_right_rank by assumption.
    rewrite (rank_le_perm _ _ x Hperm). apply rank_le_app. }
  assert (Hlow : forall x, x < 10000 -> rank_le sample x = 0).
  { intros x Hx. apply rank_le_none. eapply Forall_impl; [exact Hrange|].
    cbn beta. intros c Hc. lia. }
  assert (Hhigh : rank_le sample 7000000 = toy_sample_size).
  { rewrite <- Hlen. apply rank_le_all. eapply Forall_impl; [exact Hrange|].
    cbn beta. intros c Hc. lia. }
  assert (Hmin : 0 <= rank_le sample 10000 <= 1).
  { apply rank_le_at_min; [assumption|]. eapply Forall_impl; [exact Hrange|].
    cbn beta. intros c Hc. lia. }
  (* the filler leaves the tree alone *)
  assert (Hfill' : Forall (fun seg => In (fst seg) pts /\ snd seg < fst seg) filler).
  { eapply Forall_impl; [exact Hfill|]. cbn beta. intros seg (Hin & _ & Hlt).
    split; [|exact Hlt].
    apply (Permutation_in _ (Permutation_sym Hperm)), in_or_app. auto. }
  assert (Halloc : alloc pts = toy_alloc pts).
  { unfold alloc, toy_alloc. rewrite Hn. reflexivity. }
  unfold __init__. rewrite insert_all_app.
  rewrite (insert_all_inverted pts filler Hs Hfill' (alloc pts) eq_refl), bind_ok.
  rewrite insert_all_ranked, Halloc.
  assert (Hranks : map (ranked (points (toy_alloc pts))) toy_segments = toy_ranks).
  { change (points (toy_alloc pts)) with pts.
    unfold toy_segments, toy_ranks, ranked. cbn [map fst snd].
    rewrite !Hrank, Hhigh, !Hlow by lia. reflexivity. }
  rewrite Hranks.
  destruct (insert_ranked (toy_alloc pts) toy_ranks) as [self| |] eqn:Hbuild.
  2,3: pose proof (toy_run_answers pts) as H;
       rewrite toy_run_unfold, Hbuild in H; discriminate H.
  destruct (insert_ranked_keeps _ _ _ Hbuild) as [Hpts HN].
  change (points (toy_alloc pts)) with pts in Hpts.
  change (N (toy_alloc pts)) with (toy_size - 2) in HN.
  destruct (toy_queries pts self Hbuild) as (Q15 & Q3 & Q4 & Q7 & Q6 & Qa & Qb).
  assert (Hleaf : forall p r, rank_le sample p + rank_le toy_points p = r ->
                              stab_query self p = query_at self (r + (toy_size - 2) + 1)).
  { intros p r Hr. unfold stab_query, query_at, leaf.
    rewrite Hpts, HN, Hrank, Hr. reflexivity. }
  exists self. split; [reflexivity|].
  split; [rewrite (Hleaf 15 7); [exact Q15 | rewrite Hlow by lia; reflexivity]|].
  split; [rewrite (Hleaf 3 1); [exact Q3 | rewrite Hlow by lia; reflexivity]|].
  split; [rewrite (Hleaf 4 2); [exact Q4 | rewrite Hlow by lia; reflexivity]|].
  split; [rewrite (Hleaf 7 4); [exact Q7 | rewrite Hlow by lia; reflexivity]|].
  split; [rewrite (Hleaf 6 3); [exact Q6 | rewrite Hlow by lia; reflexivity]|].
  assert (Htoy : rank_le toy_points 10000 = 12) by reflexivity.
  assert (Hcase : rank_le sample 10000 = 0 \/ rank_le sample 10000 = 1) by lia.
  destruct Hcase as [H0 | H1].
  - rewrite (Hleaf 10000 12); [exact Qa | rewrite H0, Htoy; reflexivity].
  - rewrite (Hleaf 10000 13); [exact Qb | rewrite H1, Htoy; reflexivity].
Qed.

Lemma upto_length (n : nat) : forall x : Z, length (upto n x) = n.
Proof. induction n as [|n IH]; intros x; simpl; [reflexivity|]. f_equal. apply IH. Qed.

Lemma upto_In (n : nat) : forall x y : Z, In y (upto n x) <-> x <= y < x + Z.of_nat n.
Proof.
  induction n as [|n IH]; intros x y; cbn [upto In]; [lia|].
  rewrite IH. lia.
Qed.

Lemma upto_NoDup (n : nat) : forall x : Z, List.NoDup (upto n x).
Proof.
  induction n as [|n IH]; intros x; cbn [upto]; constructor; [|apply IH].
  rewrite upto_In. lia.
Qed.

Lemma toy_set_answers_witness :
  exists self,
    __init__ a_sorted_points ([(10005, 10001)] ++ toy_segments) = Ok self /\
    stab_query self 15 = Ok 2 /\
    stab_query self 3 = Ok 6 /\
    stab_query self 4 = Ok 5 /\
    stab_query self 7 = Ok 1 /\
    stab_query self 6 = Ok 2 /\
    stab_query self 10000 = Ok 1.
Proof.
  apply (toy_set_answers a_sample a_sorted_points [(10005, 10001)]).
  - unfold a_sample. rewrite upto_length. apply Z2Nat.id.
    unfold toy_sample_size. lia.
  - apply upto_NoDup.
  - apply Forall_forall. intros x Hx. apply list_elem_of_In in Hx.
    unfold a_sample in Hx. apply upto_In in Hx.
    unfold toy_sample_size in Hx. lia.
  - constructor; [|constructor]. cbn [fst snd]. unfold a_sample.
    rewrite !upto_In. unfold toy_sample_size. lia.
  - unfold a_sorted_points.
    change toy_points
      with ([3; 4; 6; 7; 8; 9; 10; 20; 50; 76; 89; 1000] ++ [7000000]).
    apply Permutation_app_swap_app.
  - apply sortedb_sound. vm_compute. reflexivity.
Defined.

(** Without any filler, over the thirteen toy coordinates alone, the
    answers are the same. *)
Lemma toy_set_answers_bare :
  exists self,
    __init__ toy_points toy_segments = Ok self /\
    stab_query self 15 = Ok 2 /\
    stab_query self 3 = Ok 6 /\
    stab_query self 4 = Ok 5 /\
    stab_query self 7 = Ok 1 /\
    stab_query self 6 = Ok 2 /\
    stab_query self 10000 = Ok 1.
Proof. eexists. split; [vm_compute; reflexivity|]. repeat split. Qed.

(** ** Errors of [stab_query] *)

(** The thresholds of [math.floor(math.log(x))]: [e^2 = 7.39], [e^3 = 20.09],
    [e^4 = 54.60], [e^10 = 22026.47], [e^11 = 59874.14]. *)
Lemma floor_log_examples :
  map math.floor_log [-1; 0; 1; 2; 3; 7; 8; 20; 21; 54; 55; 22026; 22027; 59874; 59875] =
  [Raise ValueError; Raise ValueError; Ok 0; Ok 0; Ok 1; Ok 1; Ok 2; Ok 2; Ok 3;
   Ok 3; Ok 4; Ok 9; Ok 10; Ok 10; Ok 11].
Proof. vm_compute. reflexivity. Qed.

(** On a tree shaped by the constructor the ascent never subscripts the
    array out of range. *)
Lemma stab_loop_in_range (self : t) :
  forall (fuel : nat) (node count : Z),
    node < Z.of_nat (length (tree self)) ->
    stab_loop fuel self node count <> Raise IndexError.
Proof.
  induction fuel as [|fuel IH]; intros node count Hn; cbn [stab_loop];
    [discriminate|].
  unfold stab_step.
  destruct (complete_cases self node) as [-> | (Hpos & c & ->)]; cbn [bind];
    [discriminate|].
  destruct c; cbn [bind]; [discriminate|].
  unfold pylist.getitem. rewrite index_in_range by lia. cbn [bind].
  destruct (node / 2 =? 0); cbn [bind]; [discriminate|].
  apply IH. assert (node / 2 < node) by (apply Z.div_lt; lia). lia.
Qed.

Lemma stab_query_in_range (pts : list Z) (segments : list (Z * Z)) (p : Z) :
  exists self,
    __init__ pts segments = Ok self /\ stab_query self p <> Raise IndexError.
Proof.
  destruct (init_spec pts segments) as (tr & -> & Hlen & _).
  eexists. split; [reflexivity|]. unfold stab_query.
  apply stab_loop_in_range. unfold leaf. cbn [tree points N set_tree].
  change (points (alloc pts)) with pts.
  pose proof (bisect_right_bounds pts p) as Hb.
  pose proof (alloc_N pts) as HN.
  destruct (length pts); lia.
Qed.

(** Where [lowest_incomplete] is positive, [complete] answers at every
    positive node, and [stab_query] returns a count. *)
Lemma stab_loop_returns (self : t) (li : Z) :
  lowest_incomplete self 0 = Ok li -> 1 <= li ->
  forall (fuel : nat) (node count : Z),
    0 < node < Z.of_nat (length (tree self)) ->
    node < Z.of_nat fuel ->
    exists v, stab_loop fuel self node count = Ok v.
Proof.
  intros Hli Hpos. induction fuel as [|fuel IH]; intros node count Hn Hf; [lia|].
  cbn [stab_loop]. unfold stab_step, complete.
  change (lowest_incomplete self node) with (lowest_incomplete self 0).
  rewrite Hli. cbn [bind].
  destruct (floor_log_cases li) as [(? & _) | (_ & a & ->)]; [lia|]. cbn [bind].
  destruct (floor_log_cases node) as [(? & _) | (_ & b & ->)]; [lia|]. cbn [bind].
  destruct (node =? _); cbn [bind]; [eauto|].
  unfold pylist.getitem. rewrite index_in_range by lia. cbn [bind].
  assert (0 <= node / 2) by (apply Z.div_pos; lia).
  assert (node / 2 < node) by (apply Z.div_lt; lia).
  destruct (Z.eqb_spec (node / 2) 0); cbn [bind]; [eauto|].
  apply IH; lia.
Qed.

(** With one to four coordinates, or six, [lowest_incomplete] is not
    positive, or not defined at all, and every query ends in the domain
    error of [math.log]. *)
Lemma small_trees_raise (pts : list Z) (segments : list (Z * Z)) (p : Z) :
  (1 <= length pts <= 4)%nat \/ length pts = 6%nat ->
  exists self,
    __init__ pts segments = Ok self /\ stab_query self p = Raise ValueError.
Proof.
  intros Hsize.
  destruct (init_spec pts segments) as (tr & -> & _ & _).
  eexists. split; [reflexivity|].
  set (self := set_tree (alloc pts) tr).
  assert (HN : N self = -1 \/ N self = 0 \/ N self = 1 \/ N self = 2 \/ N self = 4).
  { unfold self. cbn [N set_tree]. rewrite alloc_N.
    destruct pts as [|? [|? [|? [|? [|? [|? [|? ?]]]]]]]; simpl in *; lia. }
  assert (Hc : forall node, complete self node = Raise ValueError).
  { intros node. unfold complete, lowest_incomplete.
    destruct HN as [-> | [-> | [-> | [-> | ->]]]]; reflexivity. }
  unfold stab_query. cbn [stab_loop]. unfold stab_step. rewrite Hc. reflexivity.
Qed.

(** C3 (the code fails the claim): over the two coordinates 3 and 4, with
    the one interval (3, 4), the constructor returns a tree, and
    [stab_query(3)] ends in [ValueError]: [self.__N] is 0, so
    [lowest_incomplete] calls [math.log(0)]. *)
Theorem stab_query_raises_on_two_coordinates :
  exists self,
    __init__ [3; 4] [(3, 4)] = Ok self /\
    N self = 0 /\
    lowest_incomplete self 3 = Raise ValueError /\
    stab_query self 3 = Raise ValueError.
Proof.
  eexists. split; [vm_compute; reflexivity|]. repeat split.
Qed.

(** ** Where the ascent is cut short *)

(** Over the toy coordinates, with the interval (7, 7000000) added to the
    toy intervals, two intervals contain the coordinate 7: (6, 50) and the
    new one.  The new one is counted at node 2; [complete] answers [True]
    at node 2, the ascent from the leaf of 7 stops there, and
    [stab_query(7)] returns 1. *)
Lemma ascent_cut_short :
  exists self,
    __init__ toy_points (toy_segments ++ [(7, 7000000)]) = Ok self /\
    stabbed 7 (toy_segments ++ [(7, 7000000)]) = 2 /\
    ancestors (leaf self 7) = [16; 8; 4; 2; 1] /\
    complete self 2 = Ok true /\
    nth 2 (tree self) 0 = 1 /\
    stab_query self 7 = Ok 1.
Proof. eexists. split; [vm_compute; reflexivity|]. repeat split. Qed.

(** Over the eight coordinates 1 .. 8 the interval (1, 8) is counted at the
    root, where the ascent always stops: [stab_query(1)] returns 0. *)
Lemma root_never_counted :
  exists self,
    __init__ [1; 2; 3; 4; 5; 6; 7; 8] [(1, 8)] = Ok self /\
    stabbed 1 [(1, 8)] = 1 /\
    nth 1 (tree self) 0 = 1 /\
    complete self 1 = Ok true /\
    stab_query self 1 = Ok 0.
Proof. eexists. split; [vm_compute; reflexivity|]. repeat split. Qed.

(** * More of the program *)

(** ** The lowest set bit *)

Lemma land_bit0 (a b : Z) (x y : bool) :
  Z.land (2 * a + Z.b2z x) (2 * b + Z.b2z y) = 2 * Z.land a b + Z.b2z (x && y).
Proof.
  apply Z.bits_inj'. intros n Hn.
  destruct (Z.eq_dec n 0) as [-> | Hne].
  - rewrite Z.land_spec, !Z.testbit_0_r. reflexivity.
  - replace n with (Z.succ (n - 1)) by lia.
    rewrite Z.land_spec, !Z.testbit_succ_r, Z.land_spec by lia. reflexivity.
Qed.

(** [N & -N], the lowest set bit of a positive [N], is positive and at
    most [N]. *)
Lemma lowbit_bounds (p : positive) :
  0 < Z.land (Z.pos p) (- Z.pos p) <= Z.pos p.
Proof.
  induction p as [p IH | p IH |].
  - replace (Z.pos p~1) with (2 * Z.pos p + Z.b2z true) by (simpl; lia).
    replace (- (2 * Z.pos p + Z.b2z true)) with (2 * Z.lnot (Z.pos p) + Z.b2z true)
      by (rewrite Z.lnot_eq_pred_opp; simpl; lia).
    rewrite land_bit0, Z.land_lnot_diag. simpl Z.b2z. lia.
  - replace (Z.pos p~0) with (2 * Z.pos p + Z.b2z false) by (simpl; lia).
    replace (- (2 * Z.pos p + Z.b2z false)) with (2 * (- Z.pos p) + Z.b2z false)
      by (simpl; lia).
    rewrite land_bit0. simpl Z.b2z. lia.
  - vm_compute. split; [reflexivity | discriminate].
Qed.

Lemma lowbit_odd (n : Z) : Z.odd n = true -> Z.land n (- n) = 1.
Proof.
  intros Hodd. apply Z.odd_spec in Hodd as [m ->].
  replace (2 * m + 1) with (2 * m + Z.b2z true) by (simpl; lia).
  replace (- (2 * m + Z.b2z true)) with (2 * Z.lnot m + Z.b2z true)
    by (rewrite Z.lnot_eq_pred_opp; simpl; lia).
  rewrite land_bit0, Z.land_lnot_diag. reflexivity.
Qed.

(** ** The sizes at which queries fail *)

(** [2 * rho^k <= 2^k] as soon as [k >= 4]. *)
Lemma rho_pow_large (j : nat) :
  2 * math.rho_num ^ (4 + Z.of_nat j) <= 2 ^ (4 + Z.of_nat j) * math.digits ^ (4 + Z.of_nat j).
Proof.
  induction j as [|j IH].
  - vm_compute. discriminate.
  - replace (4 + Z.of_nat (S j)) with (Z.succ (4 + Z.of_nat j)) by lia.
    rewrite !Z.pow_succ_r by lia.
    assert (Hr : 0 < math.rho_num <= 2 * math.digits) by (vm_compute; split; [reflexivity|discriminate]).
    assert (Hd : 0 <= 2 ^ (4 + Z.of_nat j) * math.digits ^ (4 + Z.of_nat j)).
    { apply Z.mul_nonneg_nonneg; apply Z.pow_nonneg; [lia | vm_compute; discriminate]. }
    nia.
Qed.

Lemma rho_pow_small (k : Z) :
  0 <= k <= 3 -> 2 * math.rho_num ^ k <= 9 * math.digits ^ k.
Proof.
  intros Hk.
  assert (k = 0 \/ k = 1 \/ k = 2 \/ k = 3) as [-> | [-> | [-> | ->]]] by lia;
    vm_compute; discriminate.
Qed.

(** From [N = 9] on, [lowest_incomplete] is defined and positive. *)
Lemma floor_div_pow_positive (n : Z) :
  9 <= n ->
  exists li, math.floor_div_pow n (Z.land n (- n)) = Ok li /\ 1 <= li.
Proof.
  intros Hn. destruct n as [|p|p]; try lia.
  pose proof (lowbit_bounds p) as Hb.
  set (b := Z.land (Z.pos p) (- Z.pos p)) in *.
  unfold math.floor_div_pow. destruct (Z.leb_spec b 0) as [|_]; [lia|].
  eexists. split; [reflexivity|].
  pose proof (Z.log2_nonneg b) as Hk0.
  pose proof (Z.log2_spec b ltac:(lia)) as [Hk _].
  set (k := Z.log2 b) in *.
  assert (Hd : 0 < math.digits ^ k).
  { apply Z.pow_pos_nonneg; [vm_compute; reflexivity | lia]. }
  assert (Hr : 0 < math.rho_num ^ k).
  { apply Z.pow_pos_nonneg; [vm_compute; reflexivity | lia]. }
  assert (Hle : 2 * math.rho_num ^ k <= Z.pos p * math.digits ^ k).
  { destruct (Z.le_gt_cases k 3) as [Hsmall|Hlarge].
    - pose proof (rho_pow_small k ltac:(lia)). nia.
    - pose proof (rho_pow_large (Z.to_nat (k - 4))) as H.
      replace (4 + Z.of_nat (Z.to_nat (k - 4))) with k in H by lia. nia. }
  apply Z.div_le_lower_bound; lia.
Qed.


(** With one of these offsets every query ends in the domain error. *)
Lemma bad_offset_raises (self : t) (p : Z) :
  In (N self) [-1; 0; 1; 2; 4; 8] ->
  stab_query self p = Raise ValueError.
Proof.
  intros HN.
  assert (Hc : forall node, complete self node = Raise ValueError).
  { intros node. unfold complete, lowest_incomplete.
    simpl in HN.
    repeat (destruct HN as [<- | HN]; [reflexivity|]). contradiction. }
  unfold stab_query. cbn [stab_loop]. unfold stab_step. rewrite Hc. reflexivity.
Qed.

Lemma size_fails_offset (pts : list Z) :
  size_fails (length pts) = true -> In (N (alloc pts)) [-1; 0; 1; 2; 4; 8].
Proof.
  intros Hsize. rewrite alloc_N.
  destruct (length pts) as [|[|[|[|[|[|[|[|[|[|[|n]]]]]]]]]]];
    try discriminate Hsize; simpl; auto 10.
Qed.

(** X1: the sizes of the coordinate list at which every query fails are 0,
    1, 2, 3, 4, 6 and 10: there [lowest_incomplete] is not positive, or
    takes [math.log(0)], and [stab_query] ends in [ValueError] at every
    point.  At every other size [stab_query] returns a count at every
    point, below, between, on or above the coordinates. *)
Theorem query_fails_exactly_at_seven_sizes
    (pts : list Z) (segments : list (Z * Z)) (p : Z) :
  exists self,
    __init__ pts segments = Ok self /\
    if size_fails (length pts)
    then stab_query self p = Raise ValueError
    else exists v, stab_query self p = Ok v /\ 0 <= v.
Proof.
  destruct (init_spec pts segments) as (tr & Hinit & Hlen & Hnth).
  eexists. split; [exact Hinit|].
  set (self := set_tree (alloc pts) tr).
  assert (HN : N self = if length pts is O then -1 else Z.of_nat (length pts) - 2).
  { unfold self. cbn [N set_tree]. apply alloc_N. }
  assert (Hall : Forall (fun c => 0 <= c) (tree self)).
  { unfold self. cbn [tree set_tree]. apply Forall_forall. intros c Hc.
    apply list_elem_of_In, (In_nth _ _ 0) in Hc as (j & _ & <-).
    rewrite Hnth. apply occ_nonneg. }
  destruct (size_fails (length pts)) eqn:Hsize.
  - apply bad_offset_raises. unfold self. cbn [N set_tree].
    apply size_fails_offset, Hsize.
  - assert (Hli : exists li, lowest_incomplete self 0 = Ok li /\ 1 <= li).
    { unfold lowest_incomplete. rewrite HN.
      destruct (length pts) as [|[|[|[|[|[|[|[|[|[|[|n]]]]]]]]]]];
        try discriminate Hsize;
        try (eexists; split; [vm_compute; reflexivity | lia]).
      apply floor_div_pow_positive. lia. }
    destruct Hli as (li & Hli & Hpos).
    pose proof (bisect_right_bounds pts p) as Hb.
    assert (Hleaf : 4 <= leaf self p < Z.of_nat (length (tree self))).
    { unfold leaf. rewrite HN. unfold self. cbn [tree points set_tree alloc].
      rewrite Hlen.
      destruct (length pts) as [|[|[|[|[|n]]]]]; try discriminate Hsize; lia. }
    destruct (stab_loop_returns self li Hli Hpos (S (Z.to_nat (leaf self p)))
                (leaf self p) 0 ltac:(lia) ltac:(lia)) as (v & Hv).
    exists v. split; [exact Hv|].
    eapply stab_loop_nonneg; [exact Hall | | exact Hv]. lia.
Qed.

(** *** The turns of [insert] *)

Lemma iadd_cases (b : bool) (tr : list Z) (i : Z) :
  (if b then pylist.iadd tr i 1 else Ok tr) = Raise IndexError \/
  exists tr', (if b then pylist.iadd tr i 1 else Ok tr) = Ok tr'.
Proof.
  destruct b; [|eauto]. unfold pylist.iadd.
  destruct (pylist.index (length tr) i); eauto.
Qed.

Lemma insert_loop_turns :
  forall (fuel fuel' : nat) (tr : list Z) (l r : Z),
    Z.max 0 (r - l + 1) < 2 ^ Z.of_nat fuel ->
    Z.max 0 (r - l + 1) < 2 ^ Z.of_nat fuel' ->
    insert_loop (S fuel) tr l r <> OutOfFuel /\
    insert_loop (S fuel) tr l r = insert_loop (S fuel') tr l r.
Proof.
  induction fuel as [|fuel IH]; intros fuel' tr l r Hf Hf'.
  - change (2 ^ Z.of_nat 0) with 1 in Hf.
    cbn [insert_loop]. destruct (Z.leb_spec l r); [lia|].
    split; [discriminate | reflexivity].
  - cbn [insert_loop]. destruct (Z.leb_spec l r) as [Hlr|Hlr];
      [|split; [discriminate | reflexivity]].
    assert (Hhalf : 2 * Z.max 0 ((r - 1) / 2 - (l + 1) / 2 + 1) <= r - l + 1).
    { Z.div_mod_to_equations. lia. }
    assert (Hstep : forall k : nat,
      Z.max 0 (r - l + 1) < 2 ^ Z.of_nat (S k) ->
      Z.max 0 ((r - 1) / 2 - (l + 1) / 2 + 1) < 2 ^ Z.of_nat k).
    { intros k Hk. rewrite Nat2Z.inj_succ, Z.pow_succ_r in Hk by lia. lia. }
    destruct fuel' as [|k'].
    { change (2 ^ Z.of_nat 0) with 1 in Hf'. lia. }
    pose proof (Hstep fuel Hf) as Hk. pose proof (Hstep k' Hf') as Hk'.
    destruct (iadd_cases (l mod 2 =? 1) tr l) as [-> | (tr1 & ->)];
      cbn [bind]; [split; [discriminate | reflexivity] |].
    destruct (iadd_cases (r mod 2 =? 0) tr1 r) as [-> | (tr2 & ->)];
      cbn [bind]; [split; [discriminate | reflexivity] |].
    change (insert_loop (S fuel) tr2 ((l + 1) / 2) ((r - 1) / 2) <> OutOfFuel /\
            insert_loop (S fuel) tr2 ((l + 1) / 2) ((r - 1) / 2) =
            insert_loop (S k') tr2 ((l + 1) / 2) ((r - 1) / 2)).
    apply IH; assumption.
Qed.

(** X2: [insert] needs a logarithmic number of turns.  For boundaries
    [startpoint <= endpoint] whose leaves [startpoint + N] and
    [endpoint + N] are below [2^53] in absolute value (where the halvings
    of the loop, made on floats, are exact), whatever the tree, [insert]
    gives what its loop gives when it is allowed
    [log2 (endpoint - startpoint + 1) + 1] turns and the final test: the
    loop never needs more. *)
Theorem insert_turns_logarithmic (self : t) (startpoint endpoint : Z) :
  startpoint <= endpoint ->
  Z.abs (startpoint + N self) < 2 ^ 53 ->
  Z.abs (endpoint + N self) < 2 ^ 53 ->
  insert self startpoint endpoint <> OutOfFuel /\
  insert self startpoint endpoint =
  do tr <- insert_loop (S (Z.to_nat (Z.log2 (endpoint - startpoint + 1)) + 1))
                       (tree self) (startpoint + N self) (endpoint + N self);
  Ok (set_tree self tr).
Proof.
  intros Hle _ _. unfold insert.
  set (l := startpoint + N self). set (r := endpoint + N self).
  assert (Hw : r - l + 1 = endpoint - startpoint + 1) by (unfold l, r; lia).
  rewrite <- Hw.
  assert (H1 : Z.max 0 (r - l + 1) < 2 ^ Z.of_nat (Z.to_nat (r - l + 1))).
  { pose proof (Z.pow_gt_lin_r 2 (Z.of_nat (Z.to_nat (r - l + 1))) ltac:(lia) ltac:(lia)).
    lia. }
  assert (H2 : Z.max 0 (r - l + 1) <
               2 ^ Z.of_nat (Z.to_nat (Z.log2 (r - l + 1)) + 1)).
  { pose proof (Z.log2_nonneg (r - l + 1)).
    pose proof (Z.log2_spec (r - l + 1) ltac:(lia)) as [_ Hup].
    replace (Z.of_nat (Z.to_nat (Z.log2 (r - l + 1)) + 1))
      with (Z.succ (Z.log2 (r - l + 1))) by lia.
    lia. }
  destruct (insert_loop_turns _ _ (tree self) l r H1 H2) as [Hne Heq].
  unfold insert_fuel. rewrite <- Heq. split; [|reflexivity].
  destruct (insert_loop _ _ _ _); cbn [bind]; congruence.
Qed.

Lemma insert_turns_logarithmic_witness :
  2 <= 9 /\
  Z.abs (2 + N (alloc toy_points)) < 2 ^ 53 /\
  Z.abs (9 + N (alloc toy_points)) < 2 ^ 53 /\
  insert (alloc toy_points) 2 9 =
  do tr <- insert_loop 5 (tree (alloc toy_points)) (2 + 11) (9 + 11);
  Ok (set_tree (alloc toy_points) tr).
Proof.
  assert (H : 2 <= 9) by lia.
  assert (Hl : Z.abs (2 + N (alloc toy_points)) < 2 ^ 53) by (vm_compute; reflexivity).
  assert (Hr : Z.abs (9 + N (alloc toy_points)) < 2 ^ 53) by (vm_compute; reflexivity).
  split; [exact H|]. split; [exact Hl|]. split; [exact Hr|].
  apply (insert_turns_logarithmic (alloc toy_points) 2 9 H Hl Hr).
Defined.

(** *** Never more than the true count *)

Lemma path_sum_nonneg (tr js : list Z) :
  Forall (fun c => 0 <= c) tr -> 0 <= path_sum tr js.
Proof.
  intros Hall. induction js as [|j js IH]; simpl; [lia|].
  destruct (Nat.lt_ge_cases (Z.to_nat j) (length tr)) as [Hlt|Hge].
  - pose proof (proj1 (Forall_nth _ 0 tr) Hall _ Hlt) as H. cbn beta in H. lia.
  - rewrite nth_overflow by lia. lia.
Qed.

(** Wherever the ascent stops, it has summed a part of the way to the
    root. *)
Lemma stab_loop_below_path (self : t) :
  Forall (fun c => 0 <= c) (tree self) ->
  forall (fuel : nat) (node count v : Z),
    stab_loop fuel self node count = Ok v ->
    count <= v <= count + path_sum (tree self) (path fuel node).
Proof.
  intros Hall. induction fuel as [|fuel IH]; intros node count v H;
    cbn [stab_loop] in H; [discriminate|].
  pose proof (path_sum_nonneg (tree self) (path (S fuel) node) Hall) as Hnn.
  unfold stab_step in H.
  destruct (complete_cases self node) as [Hc | (Hpos & c & Hc)]; rewrite Hc in H;
    cbn [bind] in H; [discriminate|].
  destruct c; cbn [bind] in H.
  { injection H as <-. lia. }
  cbn [path] in *. destruct (Z.leb_spec node 0); [lia|]. cbn [path_sum] in *.
  unfold pylist.getitem in H.
  destruct (pylist.index (length (tree self)) node) as [k|] eqn:Hk;
    cbn [bind] in H; [|discriminate].
  assert (Hk' : k = Z.to_nat node).
  { unfold pylist.index in Hk.
    destruct (Z.leb_spec 0 node); [|lia].
    destruct (Z.ltb_spec node (Z.of_nat (length (tree self)))); simpl in Hk.
    - congruence.
    - destruct (Z.leb_spec (- Z.of_nat (length (tree self))) node),
               (Z.ltb_spec node 0); simpl in Hk; try discriminate; lia. }
  subst k.
  assert (0 <= nth (Z.to_nat node) (tree self) 0).
  { apply index_lt in Hk.
    pose proof (proj1 (Forall_nth _ 0 (tree self)) Hall _ Hk) as Hnn0. exact Hnn0. }
  pose proof (path_sum_nonneg (tree self) (path fuel (node / 2)) Hall).
  destruct (node / 2 =? 0); cbn [bind] in H.
  - injection H as <-. lia.
  - apply IH in H. lia.
Qed.

(** The sum of the array from the leaf of a coordinate to the root is the
    number of intervals that contain the coordinate. *)
Lemma full_path_sum (pts : list Z) (segments : list (Z * Z)) (p : Z) (tr : list Z) :
  StronglySorted Z.le pts ->
  (forall seg, In seg segments -> In (fst seg) pts) ->
  In p pts ->
  (forall j : nat,
      nth j tr 0 = occ (Z.of_nat j) (flat_map (seg_nodes (N (alloc pts)) pts) segments)) ->
  path_sum tr (ancestors (leaf (set_tree (alloc pts) tr) p)) = stabbed p segments.
Proof.
  intros Hs Hstart Hp Hnth.
  assert (HN : N (alloc pts) = Z.of_nat (length pts) - 2).
  { rewrite alloc_N. destruct pts; [contradiction | reflexivity]. }
  unfold ancestors, leaf. cbn [points N set_tree]. change (points (alloc pts)) with pts.
  rewrite (path_sum_occ tr (flat_map (seg_nodes (N (alloc pts)) pts) segments)).
  - apply segs_on_path; auto. lia.
  - exact Hnth.
  - intros j Hj. apply path_range in Hj. lia.
Qed.

(** X3: at a coordinate, [stab_query] never returns more than the number
    of intervals that contain it.  Over a sorted coordinate list, with
    intervals whose starts are coordinates, whatever count [stab_query]
    returns at a coordinate [p] lies between 0 and the number of intervals
    [(start, end)] with [start <= p <= end]. *)
Theorem never_more_than_stabbed
    (pts : list Z) (segments : list (Z * Z)) (p : Z) :
  StronglySorted Z.le pts ->
  (forall seg, In seg segments -> In (fst seg) pts) ->
  In p pts ->
  exists self,
    __init__ pts segments = Ok self /\
    forall v, stab_query self p = Ok v -> 0 <= v <= stabbed p segments.
Proof.
  intros Hs Hstart Hp.
  destruct (init_spec pts segments) as (tr & -> & Hlen & Hnth).
  eexists. split; [reflexivity|]. intros v Hv.
  set (self := set_tree (alloc pts) tr) in *.
  assert (Hall : Forall (fun c => 0 <= c) (tree self)).
  { unfold self. cbn [tree set_tree]. apply Forall_forall. intros c Hc.
    apply list_elem_of_In, (In_nth _ _ 0) in Hc as (j & _ & <-).
    rewrite Hnth. apply occ_nonneg. }
  apply (stab_loop_below_path self Hall) in Hv.
  fold (ancestors (leaf self p)) in Hv.
  unfold self in Hv at 1. cbn [tree set_tree] in Hv.
  unfold self in Hv. rewrite (full_path_sum pts segments p tr) in Hv by assumption.
  lia.
Qed.

Lemma never_more_than_stabbed_witness :
  exists self,
    __init__ toy_points (toy_segments ++ [(7, 7000000)]) = Ok self /\
    stab_query self 7 = Ok 1 /\
    0 <= 1 <= stabbed 7 (toy_segments ++ [(7, 7000000)]).
Proof.
  assert (Hs : StronglySorted Z.le toy_points) by (apply sortedb_sound; reflexivity).
  assert (Hstart : forall seg, In seg (toy_segments ++ [(7, 7000000)]) ->
                               In (fst seg) toy_points).
  { intros seg Hin. simpl in Hin.
    repeat (destruct Hin as [<- | Hin]; [simpl; tauto|]). contradiction. }
  assert (Hp : In 7 toy_points) by (simpl; tauto).
  destruct (never_more_than_stabbed toy_points _ 7 Hs Hstart Hp)
    as (self & Hinit & Hq).
  exists self. split; [exact Hinit|].
  assert (H7 : stab_query self 7 = Ok 1).
  { vm_compute in Hinit. injection Hinit as <-. vm_compute. reflexivity. }
  split; [exact H7 | exact (Hq 1 H7)].
Defined.

(** *** Points that are not coordinates *)

Lemma rank_le_ext (a : list Z) (p q : Z) :
  (forall d, In d a -> (d <=? p) = (d <=? q)) -> rank_le a p = rank_le a q.
Proof.
  induction a as [|d a IH]; intros H; [reflexivity|].
  rewrite !rank_le_cons, (H d) by (simpl; auto).
  rewrite IH; [reflexivity|]. intros d' Hd'. apply H. simpl. auto.
Qed.

(** X4: a query point is answered as the greatest coordinate that is at most
    it.  In a tree over sorted coordinates, if [c] is a coordinate,
    [c <= p], and no coordinate lies in [(c, p]], then [stab_query(p)] is
    [stab_query(c)], outcome for outcome; so every point from the greatest
    coordinate on has the answer of the greatest coordinate. *)
Theorem answered_as_coordinate_below (self : t) (p c : Z) :
  StronglySorted Z.le (points self) ->
  In c (points self) ->
  c <= p ->
  (forall d, In d (points self) -> d <= p -> d <= c) ->
  stab_query self p = stab_query self c.
Proof.
  intros Hs Hc Hcp Hgap.
  assert (Hleaf : leaf self p = leaf self c).
  { unfold leaf. rewrite !bisect_right_rank by assumption.
    rewrite (rank_le_ext (points self) p c); [reflexivity|].
    intros d Hd. specialize (Hgap d Hd).
    destruct (Z.leb_spec d p), (Z.leb_spec d c); try reflexivity; lia. }
  unfold stab_query. rewrite Hleaf. reflexivity.
Qed.

Lemma answered_as_coordinate_below_witness :
  exists self,
    __init__ toy_points toy_segments = Ok self /\
    stab_query self 15 = stab_query self 10 /\
    stab_query self 8000000 = stab_query self 7000000.
Proof.
  eexists. split; [vm_compute; reflexivity|].
  match goal with |- stab_query ?s _ = _ /\ _ => set (self := s) end.
  assert (Hs : StronglySorted Z.le (points self)) by (apply sortedb_sound; reflexivity).
  split.
  - apply (answered_as_coordinate_below self 15 10 Hs).
    + simpl. tauto.
    + lia.
    + intros d Hd Hle. simpl in Hd.
      repeat (destruct Hd as [<- | Hd]; [lia|]). contradiction.
  - apply (answered_as_coordinate_below self 8000000 7000000 Hs).
    + simpl. tauto.
    + lia.
    + intros d Hd Hle. simpl in Hd.
      repeat (destruct Hd as [<- | Hd]; [lia|]). contradiction.
Defined.

(** *** Where the leaves are *)

Lemma sorted_lt_nth (a : list Z) :
  StronglySorted Z.lt a ->
  forall i j : nat, (i < j < length a)%nat -> nth i a 0 < nth j a 0.
Proof.
  induction 1 as [|c a Hs IH Hall]; intros i j Hij; simpl in *; [lia|].
  destruct j as [|j]; [lia|]. destruct i as [|i].
  - rewrite Forall_forall in Hall. apply Hall.
    apply list_elem_of_In, nth_In. lia.
  - apply IH. lia.
Qed.

Lemma sorted_lt_le (a : list Z) : StronglySorted Z.lt a -> StronglySorted Z.le a.
Proof.
  induction 1 as [|c a Hs IH Hall]; constructor; [assumption|].
  eapply Forall_impl; [exact Hall|]. cbn beta. intros d Hd. lia.
Qed.

Lemma rank_of_nth (a : list Z) (i : nat) :
  StronglySorted Z.lt a -> (i < length a)%nat ->
  rank_le a (nth i a 0) = Z.of_nat i + 1.
Proof.
  intros Hs Hi. unfold rank_le.
  rewrite (split_count (nth i a 0) a (S i)); [lia | lia | |].
  - intros j Hj. destruct (Nat.eq_dec j i) as [-> | Hne]; [lia|].
    pose proof (sorted_lt_nth a Hs j i ltac:(lia)). lia.
  - intros j Hj. apply (sorted_lt_nth a Hs i j). lia.
Qed.

(** X5: the leaves of the coordinates are the nodes [n .. 2n - 1], in
    order.  Over [n] strictly increasing coordinates, the constructor
    returns a tree in which the ascent for the coordinate of index [i]
    (from 0) starts at node [n + i]; the ascent for a point below every
    coordinate starts at node [n - 1], which is not a leaf but the parent of
    the nodes [2n - 2] and [2n - 1], the leaves of the two greatest
    coordinates. *)
Theorem leaves_in_order (pts : list Z) (segments : list (Z * Z)) :
  StronglySorted Z.lt pts ->
  pts <> [] ->
  exists self,
    __init__ pts segments = Ok self /\
    (forall i : nat, (i < length pts)%nat ->
       leaf self (nth i pts 0) = Z.of_nat (length pts) + Z.of_nat i) /\
    (forall p : Z, (forall c, In c pts -> p < c) ->
       leaf self p = Z.of_nat (length pts) - 1 /\
       leaf self p = (2 * Z.of_nat (length pts) - 2) / 2 /\
       leaf self p = (2 * Z.of_nat (length pts) - 1) / 2).
Proof.
  intros Hs Hne.
  destruct (init_spec pts segments) as (tr & -> & _ & _).
  eexists. split; [reflexivity|].
  assert (HN : N (alloc pts) = Z.of_nat (length pts) - 2).
  { rewrite alloc_N. destruct pts; [contradiction | reflexivity]. }
  pose proof (sorted_lt_le pts Hs) as Hle.
  split.
  - intros i Hi. unfold leaf. cbn [points N set_tree]. change (points (alloc pts)) with pts.
    rewrite bisect_right_rank, rank_of_nth, HN by assumption. lia.
  - intros p Hp. unfold leaf. cbn [points N set_tree]. change (points (alloc pts)) with pts.
    rewrite bisect_right_rank, rank_le_none, HN; [| apply Forall_forall; intros c Hc;
      apply Hp, list_elem_of_In, Hc | assumption].
    repeat split; [lia | |]; Z.div_mod_to_equations; lia.
Qed.

Lemma leaves_in_order_witness :
  exists self,
    __init__ toy_points toy_segments = Ok self /\
    leaf self (nth 3 toy_points 0) = Z.of_nat (length toy_points) + Z.of_nat 3.
Proof.
  assert (Hs : StronglySorted Z.lt toy_points).
  { unfold toy_points. repeat (constructor; [|repeat (constructor; [lia|]); constructor]).
    constructor. }
  assert (Hne : toy_points <> []) by discriminate.
  destruct (leaves_in_order toy_points toy_segments Hs Hne) as (self & Hinit & Hl & _).
  exists self. split; [exact Hinit|]. apply Hl. simpl. lia.
Defined.

(** *** Putting two lists of intervals together *)

Lemma complete_by_offset (self self' : t) (node : Z) :
  N self = N self' -> complete self node = complete self' node.
Proof. intros H. unfold complete, lowest_incomplete. rewrite H. reflexivity. Qed.

(** The outcome of the ascent in a tree whose array is the sum of two
    arrays. *)
Lemma stab_loop_sum (t1 t2 t12 : t) :
  N t1 = N t12 -> N t2 = N t12 ->
  length (tree t1) = length (tree t12) ->
  length (tree t2) = length (tree t12) ->
  (forall j : nat, nth j (tree t12) 0 = nth j (tree t1) 0 + nth j (tree t2) 0) ->
  forall (fuel : nat) (node c1 c2 : Z),
    match stab_loop fuel t1 node c1, stab_loop fuel t2 node c2 with
    | Ok v1, Ok v2 => stab_loop fuel t12 node (c1 + c2) = Ok (v1 + v2)
    | Raise e1, Raise e2 => e1 = e2 /\ stab_loop fuel t12 node (c1 + c2) = Raise e1
    | OutOfFuel, OutOfFuel => stab_loop fuel t12 node (c1 + c2) = OutOfFuel
    | _, _ => False
    end.
Proof.
  intros HN1 HN2 Hl1 Hl2 Hnth.
  induction fuel as [|fuel IH]; intros node c1 c2; cbn [stab_loop]; [reflexivity|].
  unfold stab_step.
  rewrite (complete_by_offset t1 t12 node HN1), (complete_by_offset t2 t12 node HN2).
  destruct (complete t12 node) as [[|]| e |]; cbn [bind]; auto.
  unfold pylist.getitem. rewrite Hl1, Hl2.
  destruct (pylist.index (length (tree t12)) node) as [k|]; cbn [bind]; auto.
  rewrite Hnth.
  destruct (node / 2 =? 0); cbn [bind].
  - f_equal. lia.
  - replace (c1 + c2 + (nth k (tree t1) 0 + nth k (tree t2) 0))
      with (c1 + nth k (tree t1) 0 + (c2 + nth k (tree t2) 0)) by lia.
    apply IH.
Qed.

(** X6: answers add up.  Over one coordinate list, the tree built from
    [segs1 ++ segs2] holds at each node the sum of what the trees built
    from [segs1] and from [segs2] hold; at every point the three queries
    fail together, with the same error, or return together, and then the
    count for [segs1 ++ segs2] is the sum of the two counts. *)
Theorem answers_add_up (pts : list Z) (segs1 segs2 : list (Z * Z)) (p : Z) :
  exists t1 t2 t12,
    __init__ pts segs1 = Ok t1 /\
    __init__ pts segs2 = Ok t2 /\
    __init__ pts (segs1 ++ segs2) = Ok t12 /\
    (forall j : nat, nth j (tree t12) 0 = nth j (tree t1) 0 + nth j (tree t2) 0) /\
    match stab_query t1 p, stab_query t2 p with
    | Ok v1, Ok v2 => stab_query t12 p = Ok (v1 + v2)
    | Raise e1, Raise e2 => e1 = e2 /\ stab_query t12 p = Raise e1
    | _, _ => False
    end.
Proof.
  destruct (init_spec pts segs1) as (tr1 & -> & Hlen1 & Hnth1).
  destruct (init_spec pts segs2) as (tr2 & -> & Hlen2 & Hnth2).
  destruct (init_spec pts (segs1 ++ segs2)) as (tr12 & -> & Hlen12 & Hnth12).
  do 3 eexists. do 3 (split; [reflexivity|]).
  assert (Hsum : forall j : nat, nth j tr12 0 = nth j tr1 0 + nth j tr2 0).
  { intros j. rewrite Hnth12, Hnth1, Hnth2, flat_map_app. apply occ_app. }
  split; [exact Hsum|].
  set (t1 := set_tree (alloc pts) tr1). set (t2 := set_tree (alloc pts) tr2).
  set (t12 := set_tree (alloc pts) tr12).
  pose proof (stab_loop_sum t1 t2 t12 eq_refl eq_refl ltac:(simpl; lia) ltac:(simpl; lia)
                Hsum (S (Z.to_nat (leaf t12 p))) (leaf t12 p) 0 0) as H.
  unfold stab_query.
  change (leaf t1 p) with (leaf t12 p). change (leaf t2 p) with (leaf t12 p).
  destruct (stab_loop _ t1 _ _) as [v1|e1|] eqn:E1,
           (stab_loop _ t2 _ _) as [v2|e2|] eqn:E2; try contradiction; auto.
  exfalso.
  assert (Hf : (0 < S (Z.to_nat (leaf t12 p)))%nat /\
               leaf t12 p < 2 ^ Z.of_nat (S (Z.to_nat (leaf t12 p)))).
  { apply stab_query_fuel. }
  destruct Hf as [Hf1 Hf2].
  apply (stab_loop_fuel t1 _ _ _ 0 Hf1 Hf2 Hf1 Hf2). exact E1.
Qed.

(** *** Two slots of the array are never written *)

Lemma seg_nodes_range (pts : list Z) (seg : Z * Z) (j : Z) :
  (2 <= length pts)%nat ->
  In j (seg_nodes (N (alloc pts)) pts seg) ->
  1 <= j <= 2 * Z.of_nat (length pts) - 1.
Proof.
  intros Hn Hj. unfold seg_nodes in Hj.
  assert (HN : N (alloc pts) = Z.of_nat (length pts) - 2).
  { rewrite alloc_N. destruct pts; [simpl in Hn; lia | reflexivity]. }
  pose proof (bisect_right_bounds pts (fst seg)).
  pose proof (bisect_right_bounds pts (snd seg)).
  apply insert_nodes_range in Hj; lia.
Qed.

(** X7: with at least two coordinates, the first and the last slot of the
    array, [tree[0]] and [tree[2n]], are still zero after the build,
    whatever the segments: [insert] only writes nodes [1 .. 2n - 1]. *)
Theorem two_slots_never_written (pts : list Z) (segments : list (Z * Z)) :
  (2 <= length pts)%nat ->
  exists self,
    __init__ pts segments = Ok self /\
    Z.of_nat (length (tree self)) = 2 * Z.of_nat (length pts) + 1 /\
    nth 0 (tree self) 0 = 0 /\
    nth (2 * length pts) (tree self) 0 = 0.
Proof.
  intros Hn.
  destruct (init_spec pts segments) as (tr & -> & Hlen & Hnth).
  eexists. split; [reflexivity|]. cbn [tree set_tree]. split; [exact Hlen|].
  assert (Hout : forall j : Z,
    ~ (1 <= j <= 2 * Z.of_nat (length pts) - 1) ->
    occ j (flat_map (seg_nodes (N (alloc pts)) pts) segments) = 0).
  { intros j Hj. apply occ_absent. intros Hin.
    apply in_flat_map in Hin as (seg & _ & Hin).
    apply seg_nodes_range in Hin; [lia | assumption]. }
  split; rewrite Hnth; apply Hout; lia.
Qed.

Lemma two_slots_never_written_witness :
  exists self,
    __init__ toy_points toy_segments = Ok self /\
    Z.of_nat (length (tree self)) = 2 * Z.of_nat (length toy_points) + 1 /\
    nth 0 (tree self) 0 = 0 /\
    nth (2 * length toy_points) (tree self) 0 = 0.
Proof.
  apply (two_slots_never_written toy_points toy_segments). simpl. lia.
Defined.

(** ** The coordinates that [load_points] computes *)

Lemma collected (reads : list (Z * Z)) :
  forall (acc : gset Z) (x : Z),
    x ∈ foldl add_points acc reads <->
    x ∈ acc \/ exists row, In row reads /\ (x = fst row \/ x = fst row + snd row).
Proof.
  induction reads as [|[s len] rest IH]; intros acc x; cbn [foldl].
  - split; [auto | intros [H | (row & [] & _)]; exact H].
  - rewrite IH. unfold add_points. cbn [In fst snd].
    rewrite !elem_of_union, !elem_of_singleton. split.
    + intros [[-> | [-> | H]] | (row & Hin & Hx)].
      * right. exists (s, len). auto.
      * right. exists (s, len). auto.
      * auto.
      * right. exists row. auto.
    + intros [H | (row & [<- | Hin] & Hx)].
      * auto.
      * cbn [fst snd] in Hx. destruct Hx as [-> | ->]; auto.
      * right. exists row. auto.
Qed.

Lemma sorted_nodup_strict (a : list Z) :
  StronglySorted Z.le a -> NoDup a -> StronglySorted Z.lt a.
Proof.
  induction 1 as [|c a Hs IH Hall]; intros Hnd; [constructor|].
  apply NoDup_cons in Hnd as [Hc Hnd].
  constructor; [apply IH, Hnd|].
  rewrite Forall_forall in *. intros d Hd.
  assert (d <> c) by (intros ->; contradiction).
  specialize (Hall d Hd). lia.
Qed.

(** The sorted list of the collected points. *)
Lemma fresh_points (reads : list (Z * Z)) :
  let points := merge_sort Z.le (elements (foldl add_points ∅ reads)) in
  StronglySorted Z.lt points /\
  forall x : Z,
    In x points <->
    exists row, In row reads /\ (x = fst row \/ x = fst row + snd row).
Proof.
  intros points.
  assert (Hperm : points ≡ₚ elements (foldl add_points ∅ reads)).
  { apply merge_sort_Permutation. }
  split.
  - apply sorted_nodup_strict.
    + apply StronglySorted_merge_sort; apply _.
    + rewrite Hperm. apply NoDup_elements.
  - intros x. rewrite <- list_elem_of_In, Hperm, elem_of_elements, collected.
    split; [intros [H | H]; [set_solver | exact H] | auto].
Qed.

(** X8: without a points file, [load_points] returns the distinct starts
    and ends ([start + length]) of the reads, each once, in strictly
    increasing order, and writes them to the points file; the pickle file is
    not touched. *)
Theorem load_points_computes_endpoints (reads : list (Z * Z)) (fs : files) :
  points_file fs = None ->
  exists points,
    load_points reads fs =
      (Ok points,
       {| points_file := Some (write_points points); pickleTree := pickleTree fs |}) /\
    StronglySorted Z.lt points /\
    forall x : Z,
      In x points <->
      exists row, In row reads /\ (x = fst row \/ x = fst row + snd row).
Proof.
  intros Hnone. unfold load_points. rewrite Hnone.
  eexists. split; [reflexivity|]. apply fresh_points.
Qed.

Lemma load_points_computes_endpoints_witness :
  exists points,
    load_points [(10, 10); (3, 1); (3, 3); (20, -10)] no_files =
      (Ok points, {| points_file := Some (write_points points); pickleTree := None |}) /\
    StronglySorted Z.lt points.
Proof.
  destruct (load_points_computes_endpoints [(10, 10); (3, 1); (3, 3); (20, -10)]
              no_files eq_refl) as (points & Hload & Hs & _).
  exists points. split; [exact Hload | exact Hs].
Defined.

(** ** Writing the points file and reading it back *)

Lemma digit_char (d : Z) :
  0 <= d < 10 ->
  text.is_digit (ascii_of_nat (48 + Z.to_nat d)) = true /\
  text.digit_value (ascii_of_nat (48 + Z.to_nat d)) = d /\
  text.is_space (ascii_of_nat (48 + Z.to_nat d)) = false /\
  Ascii.eqb (ascii_of_nat (48 + Z.to_nat d)) text.newline = false /\
  Ascii.eqb (ascii_of_nat (48 + Z.to_nat d)) "-" = false /\
  Ascii.eqb (ascii_of_nat (48 + Z.to_nat d)) "+" = false.
Proof.
  intros Hd.
  assert (d = 0 \/ d = 1 \/ d = 2 \/ d = 3 \/ d = 4 \/ d = 5 \/ d = 6 \/
          d = 7 \/ d = 8 \/ d = 9) as H by lia.
  repeat (destruct H as [-> | H]; [vm_compute; auto 10|]). subst. vm_compute. auto 10.
Qed.

Lemma digits_of_all_digits (fuel : nat) :
  forall (n : Z) (acc : string),
    0 <= n -> text.all_digits acc = true ->
    text.all_digits (text.digits_of fuel n acc) = true.
Proof.
  induction fuel as [|fuel IH]; intros n acc Hn Hacc; cbn [text.digits_of];
    [exact Hacc|].
  pose proof (Z.mod_pos_bound n 10 ltac:(lia)) as Hmod.
  destruct (digit_char (n mod 10) Hmod) as (Hd & _).
  assert (Hacc' : text.all_digits
            (String (ascii_of_nat (48 + Z.to_nat (n mod 10))) acc) = true).
  { cbn [text.all_digits]. rewrite Hd, Hacc. reflexivity. }
  destruct (n <? 10); [exact Hacc'|].
  apply IH; [apply Z.div_pos; lia | exact Hacc'].
Qed.

(** Reading the digits that [str] wrote. *)
Lemma digits_value_digits_of (fuel : nat) :
  forall (n : Z) (rest : string) (acc : Z) (b : bool),
    0 <= n ->
    text.digits_value (text.digits_of (S fuel) n rest) acc b =
    text.digits_value rest (text.pushed (S fuel) n acc) true.
Proof.
  induction fuel as [|fuel IH]; intros n rest acc b Hn;
    pose proof (Z.mod_pos_bound n 10 ltac:(lia)) as Hmod;
    destruct (digit_char (n mod 10) Hmod) as (Hd & Hv & _).
  - cbn [text.digits_of text.pushed].
    destruct (Z.ltb_spec n 10) as [Hlt|Hge]; cbn [text.digits_value];
      rewrite Hd, Hv; [rewrite Z.mod_small by lia|]; reflexivity.
  - cbn [text.digits_of text.pushed].
    destruct (Z.ltb_spec n 10) as [Hlt|Hge].
    + cbn [text.digits_value]. rewrite Hd, Hv, Z.mod_small by lia. reflexivity.
    + change (text.digits_value (text.digits_of (S fuel) (n / 10)
                (String (ascii_of_nat (48 + Z.to_nat (n mod 10))) rest)) acc b =
              text.digits_value rest
                (10 * text.pushed (S fuel) (n / 10) acc + n mod 10) true).
      rewrite IH by (apply Z.div_pos; lia).
      cbn [text.digits_value]. rewrite Hd, Hv. reflexivity.
Qed.

Lemma log2_fuel (n : Z) :
  0 <= n -> n < 2 ^ Z.of_nat (S (Z.to_nat (Z.log2 n))).
Proof.
  intros Hn. destruct (Z.eq_dec n 0) as [-> | Hne]; [reflexivity|].
  pose proof (Z.log2_nonneg n) as Hl.
  pose proof (Z.log2_spec n ltac:(lia)) as [_ Hup].
  replace (Z.of_nat (S (Z.to_nat (Z.log2 n)))) with (Z.succ (Z.log2 n)) by lia.
  exact Hup.
Qed.

Lemma pushed_more (fuel : nat) :
  forall n : Z, 0 <= n < 2 ^ Z.of_nat (S fuel) -> text.pushed (S fuel) n 0 = n.
Proof.
  induction fuel as [|fuel IH]; intros n Hn; cbn [text.pushed].
  - change (2 ^ Z.of_nat 1) with 2 in Hn. destruct (Z.ltb_spec n 10); lia.
  - destruct (Z.ltb_spec n 10) as [Hlt|Hge]; [lia|].
    change (10 * text.pushed (S fuel) (n / 10) 0 + n mod 10 = n).
    rewrite IH.
    + pose proof (Z.div_mod n 10 ltac:(lia)). lia.
    + rewrite Nat2Z.inj_succ, Z.pow_succ_r in Hn by lia.
      split; [apply Z.div_pos; lia|]. apply Z.div_lt_upper_bound; lia.
Qed.

(** The digits of a natural number read back as that number. *)
Lemma digits_round_trip (n : Z) :
  0 <= n ->
  text.digits_value
    (text.digits_of (S (Z.to_nat (Z.log2 n))) n EmptyString) 0 false = Some n.
Proof.
  intros Hn. rewrite digits_value_digits_of by assumption.
  cbn [text.digits_value]. f_equal. apply pushed_more.
  split; [assumption | apply log2_fuel, Hn].
Qed.

Lemma digit_is_plain (c : ascii) :
  text.is_digit c = true ->
  text.is_space c = false /\ Ascii.eqb c "-" = false /\ Ascii.eqb c "+" = false.
Proof.
  destruct c as [[] [] [] [] [] [] [] []]; vm_compute; intros H;
    try discriminate H; auto.
Qed.

Lemma all_digits_no_space (s : string) :
  text.all_digits s = true -> text.no_space s = true.
Proof.
  induction s as [|c s IH]; cbn [text.all_digits text.no_space]; [auto|].
  intros H. apply andb_prop in H as [Hc Hs].
  destruct (digit_is_plain c Hc) as (-> & _). rewrite IH by assumption. reflexivity.
Qed.

Lemma rstrip_no_space (s : string) : text.no_space s = true -> text.rstrip s = s.
Proof.
  induction s as [|c s IH]; cbn [text.no_space text.rstrip]; [auto|].
  intros H. apply andb_prop in H as [Hc Hs]. rewrite IH by assumption.
  apply negb_true_iff in Hc. rewrite Hc. destruct s; reflexivity.
Qed.

Lemma lstrip_no_space (s : string) : text.no_space s = true -> text.lstrip s = s.
Proof.
  destruct s as [|c s]; cbn [text.no_space text.lstrip]; [auto|].
  intros H. apply andb_prop in H as [Hc _].
  apply negb_true_iff in Hc. rewrite Hc. reflexivity.
Qed.

Lemma space_newline (c : ascii) :
  text.is_space c = false -> Ascii.eqb c text.newline = false.
Proof.
  destruct (Ascii.eqb_spec c text.newline) as [-> | _]; [|reflexivity].
  vm_compute. intros H. discriminate H.
Qed.

Lemma append_empty (s : string) : (EmptyString ++ s)%string = s.
Proof. reflexivity. Qed.

Lemma append_char (c : ascii) (s s' : string) :
  (String c s ++ s')%string = String c (s ++ s').
Proof. reflexivity. Qed.

Lemma lines_first (s rest : string) :
  text.no_space s = true ->
  text.lines (s ++ String text.newline rest) =
  (s ++ String text.newline EmptyString)%string :: text.lines rest.
Proof.
  induction s as [|c s IH]; cbn [text.no_space]; intros H.
  - rewrite !append_empty. cbn [text.lines]. rewrite Ascii.eqb_refl. reflexivity.
  - apply andb_prop in H as [Hc Hs]. apply negb_true_iff in Hc.
    rewrite !append_char. cbn [text.lines].
    rewrite (space_newline c Hc), IH by assumption. reflexivity.
Qed.

Lemma rstrip_newline_line (s : string) :
  text.no_space s = true ->
  text.rstrip_newline (s ++ String text.newline EmptyString) = s.
Proof.
  induction s as [|c s IH]; cbn [text.no_space]; intros H.
  - reflexivity.
  - apply andb_prop in H as [Hc Hs]. apply negb_true_iff in Hc.
    rewrite append_char. cbn [text.rstrip_newline]. rewrite IH by assumption.
    rewrite (space_newline c Hc). destruct s; reflexivity.
Qed.

Lemma str_no_space (z : Z) : text.no_space (text.str z) = true.
Proof.
  unfold text.str. destruct (Z.ltb_spec z 0).
  - cbn [text.no_space].
    rewrite all_digits_no_space by (apply digits_of_all_digits; [lia | reflexivity]).
    reflexivity.
  - apply all_digits_no_space, digits_of_all_digits; [lia | reflexivity].
Qed.

(** [int(str(z))] is [z]. *)
Lemma int_str (z : Z) : text.int (text.str z) = Ok z.
Proof.
  unfold text.int.
  rewrite lstrip_no_space, rstrip_no_space by apply str_no_space.
  unfold text.str. destruct (Z.ltb_spec z 0) as [Hneg|Hpos].
  - rewrite Ascii.eqb_refl, digits_round_trip by lia. f_equal. lia.
  - pose proof (digits_round_trip z Hpos) as Hv.
    pose proof (digits_of_all_digits (S (Z.to_nat (Z.log2 z))) z EmptyString Hpos eq_refl)
      as Hd.
    destruct (text.digits_of _ z EmptyString) as [|c ds]; [discriminate Hv|].
    cbn [text.all_digits] in Hd. apply andb_prop in Hd as [Hc _].
    destruct (digit_is_plain c Hc) as (_ & -> & ->). rewrite Hv. reflexivity.
Qed.

Lemma lines_of_written (points : list Z) :
  text.lines (write_points points) =
  map (fun l => (text.str l ++ String text.newline EmptyString)%string) points.
Proof.
  induction points as [|l rest IH]; cbn [write_points map]; [reflexivity|].
  rewrite lines_first by apply str_no_space. rewrite IH. reflexivity.
Qed.

(** Reading back what [load_points] writes gives the points. *)
Lemma read_written (points : list Z) :
  ints_of_lines (text.lines (write_points points)) = Ok points.
Proof.
  rewrite lines_of_written.
  induction points as [|l rest IH]; cbn [map ints_of_lines]; [reflexivity|].
  rewrite rstrip_newline_line by apply str_no_space.
  rewrite int_str, IH. reflexivity.
Qed.

(** X9: the points file round trip.  A first [load_points] without a points
    file computes the points and writes the file; any later [load_points],
    whatever the reads are by then, returns the same points from the file
    and leaves the files as they are. *)
Theorem points_file_round_trip (reads reads' : list (Z * Z)) (fs : files) :
  points_file fs = None ->
  exists points fs',
    load_points reads fs = (Ok points, fs') /\
    load_points reads' fs' = (Ok points, fs').
Proof.
  intros Hnone. unfold load_points at 1. rewrite Hnone.
  do 2 eexists. split; [reflexivity|].
  unfold load_points. cbn [points_file]. rewrite read_written. reflexivity.
Qed.

Lemma points_file_round_trip_witness :
  exists points fs',
    load_points [(10, 10); (3, 1); (-7, 3)] no_files = (Ok points, fs') /\
    load_points [(1, 1)] fs' = (Ok points, fs').
Proof.
  apply (points_file_round_trip [(10, 10); (3, 1); (-7, 3)] [(1, 1)] no_files eq_refl).
Defined.

(** ** The table of [main] *)

Lemma query_loci_table (segmentTree : t) (positions : list Z) :
  forall loci_list table : list entry,
    query_loci segmentTree positions loci_list = Ok table ->
    exists coverages : list Z,
      Forall2 (fun p c => stab_query segmentTree p = Ok c) positions coverages /\
      table = loci_list ++ map (fun pc => Locus (fst pc) (snd pc))
                               (combine positions coverages).
Proof.
  induction positions as [|p rest IH]; intros loci_list table H;
    cbn [query_loci] in H.
  - injection H as <-. exists []. split; [constructor|].
    cbn [combine map]. rewrite app_nil_r. reflexivity.
  - destruct (stab_query segmentTree p) as [c| |] eqn:Hq; cbn [bind] in H;
      try discriminate.
    apply IH in H as (cs & Hall & ->).
    exists (c :: cs). split; [constructor; assumption|].
    cbn [combine map fst snd]. rewrite <- app_assoc. reflexivity.
Qed.

Lemma query_loci_raises (segmentTree : t) (positions : list Z) (e : exn) :
  positions <> [] ->
  (forall p, stab_query segmentTree p = Raise e) ->
  forall loci_list, query_loci segmentTree positions loci_list = Raise e.
Proof.
  intros Hne Hq loci_list. destruct positions as [|p rest]; [contradiction|].
  cbn [query_loci]. rewrite Hq. reflexivity.
Qed.

(** X10: the table of [main].  Whenever [main] returns, with or without
    files from an earlier run, it leaves a pickled tree, and its table is
    the header followed by one [(position, coverage)] pair for each
    position, in the order of the positions, where the coverage is what
    [stab_query] returns on that tree. *)
Theorem main_table (reads : list (Z * Z)) (positions : list Z)
    (fs fs' : files) (table : list entry) :
  main reads positions fs = (Ok table, fs') ->
  exists (segmentTree : t) (coverages : list Z),
    pickleTree fs' = Some segmentTree /\
    Forall2 (fun p c => stab_query segmentTree p = Ok c) positions coverages /\
    table = Header "position" "coverage" ::
            map (fun pc => Locus (fst pc) (snd pc)) (combine positions coverages).
Proof.
  unfold main. intros H.
  destruct (pickleTree fs) as [segmentTree|] eqn:Hpickle.
  - injection H as Hq <-.
    apply query_loci_table in Hq as (cs & Hall & ->).
    exists segmentTree, cs. auto.
  - destruct (load_points reads fs) as [[points| |] fs1]; try discriminate.
    destruct (__init__ points (segments_of reads)) as [segmentTree| |];
      try discriminate.
    injection H as Hq <-.
    apply query_loci_table in Hq as (cs & Hall & ->).
    exists segmentTree, cs. auto.
Qed.

Lemma main_table_witness :
  exists (table : list entry) (fs' : files) (segmentTree : t) (coverages : list Z),
    main [(3, 1); (6, 4); (20, 0)] [4; 20; 3] no_files = (Ok table, fs') /\
    pickleTree fs' = Some segmentTree /\
    Forall2 (fun p c => stab_query segmentTree p = Ok c) [4; 20; 3] coverages /\
    table = Header "position" "coverage" ::
            map (fun pc => Locus (fst pc) (snd pc)) (combine [4; 20; 3] coverages).
Proof.
  destruct (main [(3, 1); (6, 4); (20, 0)] [4; 20; 3] no_files) as [[table| |] fs']
    eqn:Hmain; try (vm_compute in Hmain; discriminate Hmain).
  destruct (main_table _ _ _ _ _ Hmain) as (segmentTree & coverages & H1 & H2 & H3).
  exists table, fs', segmentTree, coverages. auto.
Defined.

(** ** From the reads to the coverage *)

Lemma stabbed_reads (p : Z) (reads : list (Z * Z)) :
  stabbed p (segments_of reads) = reads_over p reads.
Proof.
  unfold stabbed, reads_over, segments_of. f_equal.
  induction reads as [|row rest IH]; [reflexivity|].
  cbn [map List.filter]. unfold covers at 1. cbn [fst snd].
  destruct ((fst row <=? p) && (p <=? fst row + snd row)); cbn [List.length];
    rewrite IH; reflexivity.
Qed.

Lemma Forall2_combine {A B : Type} (P : A -> B -> Prop) (l : list A) (k : list B) :
  Forall2 P l k -> forall x y, In (x, y) (combine l k) -> P x y.
Proof.
  induction 1 as [|a b l k Hab _ IH]; intros x y Hin; cbn [combine] in Hin;
    [contradiction|].
  destruct Hin as [[= <- <-] | Hin]; [assumption | apply IH, Hin].
Qed.

Lemma starts_of_reads (reads : list (Z * Z)) (pts : list Z) :
  (forall x, In x pts <->
             exists row, In row reads /\ (x = fst row \/ x = fst row + snd row)) ->
  forall seg, In seg (segments_of reads) -> In (fst seg) pts /\ In (snd seg) pts.
Proof.
  intros Hpts seg Hin. unfold segments_of in Hin.
  apply in_map_iff in Hin as (row & <- & Hrow). cbn [fst snd].
  split; apply Hpts; exists row; auto.
Qed.

(** X11: from the reads to the coverage.  In a first run of [main] (no
    points file, no pickle), for every position of the table that is a start
    or an end of some read, and from whose leaf the ascent is not cut short,
    the coverage in the table is the number of reads [(start, length)] with
    [start <= position <= start + length]. *)
Theorem main_counts_reads (reads : list (Z * Z)) (positions : list Z)
    (fs fs' : files) (table : list entry) :
  points_file fs = None -> pickleTree fs = None ->
  main reads positions fs = (Ok table, fs') ->
  exists segmentTree,
    pickleTree fs' = Some segmentTree /\
    forall p c : Z,
      In (Locus p c) table ->
      (exists row, In row reads /\ (p = fst row \/ p = fst row + snd row)) ->
      (forall j, In j (ancestors (leaf segmentTree p)) ->
                 complete segmentTree j = Ok false) ->
      c = reads_over p reads.
Proof.
  intros Hpoints Hpickle Hmain. unfold main, load_points in Hmain.
  rewrite Hpickle, Hpoints in Hmain.
  set (pts := merge_sort Z.le (elements (foldl add_points ∅ reads))) in *.
  destruct (fresh_points reads) as [Hs Hin]. fold pts in Hs, Hin.
  destruct (init_spec pts (segments_of reads)) as (tr & Hinit & Hlen & Hnth).
  rewrite Hinit in Hmain. injection Hmain as Hq <-.
  eexists. split; [reflexivity|]. intros p c Hrow Hp Hfull.
  set (self := set_tree (alloc pts) tr) in *.
  apply query_loci_table in Hq as (cs & Hall & ->).
  cbn [app In] in Hrow. destruct Hrow as [Hrow | Hrow]; [discriminate Hrow|].
  apply in_map_iff in Hrow as ([p' c'] & [= -> ->] & Hrow).
  pose proof (Forall2_combine _ _ _ Hall p c Hrow) as Hquery. cbn beta in Hquery.
  apply Hin in Hp.
  pose proof (sorted_lt_le pts Hs) as Hle.
  assert (HN : N self = Z.of_nat (length pts) - 2).
  { unfold self. cbn [N set_tree]. rewrite alloc_N.
    destruct pts; [contradiction | reflexivity]. }
  pose proof (rank_le_pos pts p Hp) as Hrank.
  pose proof (rank_le_bound pts p) as Hbound.
  rewrite <- (bisect_right_rank pts p Hle) in Hrank, Hbound.
  assert (Hleaf : leaf self p = bisect.bisect_right pts p + N self + 1) by reflexivity.
  assert (Hrange : 0 < leaf self p < Z.of_nat (length (tree self))).
  { rewrite Hleaf, HN. unfold self. cbn [tree set_tree]. lia. }
  unfold stab_query in Hquery.
  rewrite stab_loop_full in Hquery; [| exact Hrange | lia | exact Hfull].
  assert (Hc : c = 0 + path_sum (tree self)
                           (path (S (Z.to_nat (leaf self p))) (leaf self p)))
    by congruence.
  pose proof (full_path_sum pts (segments_of reads) p tr Hle) as Hsum.
  unfold ancestors in Hsum. fold self in Hsum.
  rewrite Hc. change (tree self) with tr. rewrite Hsum; auto.
  - rewrite stabbed_reads. lia.
  - intros seg Hseg. apply (starts_of_reads reads pts Hin seg Hseg).
Qed.


Lemma main_counts_reads_witness :
  exists (table : list entry) (fs' : files),
    main toy_reads [3; 9] no_files = (Ok table, fs') /\
    In (Locus 3 1) table /\ 1 = reads_over 3 toy_reads.
Proof.
  destruct (main toy_reads [3; 9] no_files) as [[table| |] fs'] eqn:Hmain;
    try (vm_compute in Hmain; discriminate Hmain).
  destruct (main_counts_reads toy_reads [3; 9] no_files fs' table eq_refl eq_refl Hmain)
    as (segmentTree & Hpickle & Hcount).
  exists table, fs'. split; [reflexivity|].
  vm_compute in Hmain. injection Hmain as <- <-.
  assert (Hin : In (Locus 3 1) [Header "position" "coverage"; Locus 3 1; Locus 9 2])
    by (simpl; tauto).
  split; [exact Hin|].
  apply (Hcount 3 1 Hin).
  - exists (3, 1). simpl. tauto.
  - cbn [pickleTree] in Hpickle. injection Hpickle as <-.
    intros j Hj. vm_compute in Hj.
    repeat (destruct Hj as [<- | Hj]; [vm_compute; reflexivity|]). contradiction.
Defined.

(** ** Too few reads *)

Lemma collected_size (reads : list (Z * Z)) :
  forall acc : gset Z,
    (size (foldl add_points acc reads) <= size acc + 2 * length reads)%nat.
Proof.
  induction reads as [|[s len] rest IH]; intros acc; cbn [foldl length]; [lia|].
  specialize (IH (add_points acc (s, len))). unfold add_points in *.
  assert (Hadd : (size ({[(s + len)%Z]} ∪ ({[s]} ∪ acc) : gset Z) <= size acc + 2)%nat).
  { rewrite size_union_alt, size_singleton.
    assert (H1 : (size (({[s]} ∪ acc) ∖ {[(s + len)%Z]} : gset Z)
                  <= size ({[s]} ∪ acc : gset Z))%nat).
    { apply subseteq_size. intros x Hx. apply elem_of_difference in Hx as [Hx _]. exact Hx. }
    assert (H2 : (size ({[s]} ∪ acc : gset Z) <= 1 + size acc)%nat).
    { rewrite size_union_alt, size_singleton.
      assert (H3 : (size (acc ∖ {[s]}) <= size acc)%nat).
      { apply subseteq_size. intros x Hx. apply elem_of_difference in Hx as [Hx _]. exact Hx. }
      lia. }
    lia. }
  lia.
Qed.

Lemma fresh_points_length (reads : list (Z * Z)) :
  (length (merge_sort Z.le (elements (foldl add_points (∅ : gset Z) reads)))
   <= 2 * length reads)%nat.
Proof.
  rewrite merge_sort_Permutation.
  pose proof (collected_size reads ∅) as H. rewrite size_empty in H.
  exact H.
Qed.

(** X12: too few reads.  A first run of [main] on at most two reads, with at
    least one position to query, ends in [ValueError] (there are at most
    four coordinates), but only after it has written both files: the points
    file holds the points that [load_points] computed, the pickle the tree
    built from them.  With these files every later run with a position to
    query ends in [ValueError] too and changes no file, whatever the reads
    are by then. *)
Theorem main_fails_on_few_reads
    (reads reads' : list (Z * Z)) (positions positions' : list Z) (fs : files) :
  points_file fs = None -> pickleTree fs = None ->
  (length reads <= 2)%nat ->
  positions <> [] -> positions' <> [] ->
  exists (points : list Z) (segmentTree : t) (fs' : files),
    load_points reads fs =
      (Ok points,
       {| points_file := Some (write_points points); pickleTree := None |}) /\
    (length points <= 4)%nat /\
    __init__ points (segments_of reads) = Ok segmentTree /\
    fs' = {| points_file := Some (write_points points);
             pickleTree := Some segmentTree |} /\
    main reads positions fs = (Raise ValueError, fs') /\
    main reads' positions' fs' = (Raise ValueError, fs').
Proof.
  intros Hpoints Hpickle Hfew Hne Hne'.
  unfold main at 1, load_points. rewrite Hpickle, Hpoints.
  set (pts := merge_sort Z.le (elements (foldl add_points ∅ reads))).
  pose proof (fresh_points_length reads) as Hlen. fold pts in Hlen.
  destruct (init_spec pts (segments_of reads)) as (tr & Hinit & _ & _).
  rewrite Hinit.
  assert (Hraise : forall p, stab_query (set_tree (alloc pts) tr) p = Raise ValueError).
  { intros p. apply bad_offset_raises. cbn [N set_tree].
    apply size_fails_offset.
    destruct (length pts) as [|[|[|[|[|n]]]]]; try reflexivity. lia. }
  exists pts, (set_tree (alloc pts) tr). eexists.
  split; [reflexivity|]. split; [lia|]. split; [exact Hinit|].
  split; [reflexivity|]. cbn [points_file]. split.
  { rewrite (query_loci_raises _ _ ValueError) by assumption. reflexivity. }
  unfold main. cbn [pickleTree].
  rewrite (query_loci_raises _ _ ValueError) by assumption. reflexivity.
Qed.

Lemma main_fails_on_few_reads_witness :
  exists (points : list Z) (segmentTree : t) (fs' : files),
    load_points [(3, 1); (3, 7)] no_files =
      (Ok points,
       {| points_file := Some (write_points points); pickleTree := None |}) /\
    (length points <= 4)%nat /\
    __init__ points (segments_of [(3, 1); (3, 7)]) = Ok segmentTree /\
    fs' = {| points_file := Some (write_points points);
             pickleTree := Some segmentTree |} /\
    main [(3, 1); (3, 7)] [3] no_files = (Raise ValueError, fs') /\
    main toy_reads [3; 9] fs' = (Raise ValueError, fs').
Proof.
  apply (main_fails_on_few_reads [(3, 1); (3, 7)] toy_reads [3] [3; 9] no_files
           eq_refl eq_refl).
  - simpl. lia.
  - discriminate.
  - discriminate.
Defined.

(** ** Reads of negative length *)

Lemma insert_segment_keeps (self self' : t) (seg : Z * Z) :
  insert_segment self seg = Ok self' -> points self' = points self.
Proof.
  destruct seg as [s e]. unfold insert_segment. intros H.
  apply insert_keeps in H as [H _]. exact H.
Qed.

Lemma insert_all_drops_inverted (segments : list (Z * Z)) :
  forall self : t,
    StronglySorted Z.le (points self) ->
    (forall seg, In seg segments -> In (fst seg) (points self)) ->
    insert_all self segments =
    insert_all self (List.filter (fun seg => fst seg <=? snd seg) segments).
Proof.
  induction segments as [|[s e] rest IH]; intros self Hs Hin; [reflexivity|].
  cbn [List.filter fst snd].
  assert (Hrest : forall self', points self' = points self ->
            insert_all self' rest =
            insert_all self' (List.filter (fun seg => fst seg <=? snd seg) rest)).
  { intros self' Hp. apply IH; rewrite Hp; [assumption|].
    intros seg Hseg. apply Hin. simpl. auto. }
  destruct (Z.leb_spec s e) as [Hle|Hlt]; cbn [insert_all].
  - destruct (insert_segment self (s, e)) as [self'| |] eqn:E; cbn [bind];
      [|reflexivity..].
    apply Hrest. eapply insert_segment_keeps, E.
  - rewrite (insert_segment_inverted self s e s Hs); [| apply (Hin (s, e)); simpl; auto | lia].
    cbn [bind]. apply Hrest. reflexivity.
Qed.

Lemma segments_of_filter (reads : list (Z * Z)) :
  segments_of (List.filter (fun row => 0 <=? snd row) reads) =
  List.filter (fun seg => fst seg <=? snd seg) (segments_of reads).
Proof.
  unfold segments_of. induction reads as [|[s len] rest IH]; [reflexivity|].
  cbn [List.filter map fst snd].
  destruct (Z.leb_spec 0 len), (Z.leb_spec s (s + len)); try lia;
    cbn [map fst snd]; rewrite IH; reflexivity.
Qed.

(** X13: reads of negative length.  In a first run, over the points that
    [load_points] computes from all the reads, the tree built from all the
    reads is the tree built from the reads of length at least 0: a read of
    negative length gives its two positions to the coordinates and nothing
    to any count. *)
Theorem negative_length_reads_count_nothing
    (reads : list (Z * Z)) (fs fs' : files) (points : list Z) :
  points_file fs = None ->
  load_points reads fs = (Ok points, fs') ->
  __init__ points (segments_of reads) =
  __init__ points (segments_of (List.filter (fun row => 0 <=? snd row) reads)).
Proof.
  intros Hnone Hload. unfold load_points in Hload. rewrite Hnone in Hload.
  injection Hload as <- _.
  destruct (fresh_points reads) as [Hs Hin].
  rewrite segments_of_filter. unfold __init__.
  apply insert_all_drops_inverted.
  - apply sorted_lt_le, Hs.
  - intros seg Hseg. apply (starts_of_reads reads _ Hin seg Hseg).
Qed.

Lemma negative_length_reads_count_nothing_witness :
  exists points fs',
    load_points [(3, 1); (20, -10); (6, 4)] no_files = (Ok points, fs') /\
    __init__ points (segments_of [(3, 1); (20, -10); (6, 4)]) =
    __init__ points (segments_of (List.filter (fun row => 0 <=? snd row)
                                              [(3, 1); (20, -10); (6, 4)])).
Proof.
  destruct (load_points [(3, 1); (20, -10); (6, 4)] no_files) as [[points| |] fs']
    eqn:Hload; try (vm_compute in Hload; discriminate Hload).
  exists points, fs'. split; [reflexivity|].
  apply (negative_length_reads_count_nothing _ no_files fs' points eq_refl Hload).
Defined.

(** ** A blank line in the points file *)

Lemma append_assoc' (a b c : string) : ((a ++ b) ++ c)%string = (a ++ (b ++ c))%string.
Proof.
  induction a as [|x a IH]; [reflexivity|].
  rewrite !append_char, IH. reflexivity.
Qed.

Lemma lines_written_then (points : list Z) (rest : string) :
  text.lines (write_points points ++ rest) =
  map (fun l => (text.str l ++ String text.newline EmptyString)%string) points ++
  text.lines rest.
Proof.
  induction points as [|l more IH]; cbn [write_points map app].
  - apply (f_equal text.lines (append_empty rest)).
  - rewrite append_assoc', append_char.
    rewrite lines_first by apply str_no_space. rewrite IH. reflexivity.
Qed.

(** X14: a blank line in the points file.  If the points file holds an
    empty line after any number of well-written points, whatever follows,
    [load_points] ends in [ValueError] ([int('')]) and changes no file. *)
Theorem blank_line_in_points_file
    (reads : list (Z * Z)) (fs : files) (before : list Z) (after : string) :
  points_file fs = Some (write_points before ++ String text.newline after)%string ->
  load_points reads fs = (Raise ValueError, fs).
Proof.
  intros Hfile. unfold load_points. rewrite Hfile, lines_written_then.
  f_equal.
  assert (Hblank : text.lines (String text.newline after) =
                   String text.newline EmptyString :: text.lines after).
  { cbn [text.lines]. rewrite Ascii.eqb_refl. reflexivity. }
  rewrite Hblank. clear Hfile.
  induction before as [|l more IH]; cbn [map app ints_of_lines].
  - reflexivity.
  - rewrite rstrip_newline_line by apply str_no_space.
    rewrite int_str, IH. reflexivity.
Qed.

Lemma blank_line_in_points_file_witness :
  load_points [(3, 1)]
    {| points_file := Some (write_points [3; 4] ++ String text.newline "6")%string;
       pickleTree := None |} =
  (Raise ValueError,
   {| points_file := Some (write_points [3; 4] ++ String text.newline "6")%string;
      pickleTree := None |}).
Proof.
  apply (blank_line_in_points_file [(3, 1)]
           {| points_file := Some (write_points [3; 4] ++ String text.newline "6")%string;
              pickleTree := None |} [3; 4] "6" eq_refl).
Defined.

(** ** Running [main] again *)

(** X15: running [main] again.  After a run of [main] that returned a
    table, a further run on the same positions that finds the pickle of the
    first run returns the same table and changes no file, whatever the reads
    are by then and whatever the points file holds by then, also when it is
    gone or no longer a list of numbers: the tree comes from the pickle, and
    neither the reads nor the points file are looked at. *)
Theorem main_rerun (reads reads' : list (Z * Z)) (positions : list Z)
    (fs fs' fs'' : files) (table : list entry) :
  main reads positions fs = (Ok table, fs') ->
  pickleTree fs'' = pickleTree fs' ->
  main reads' positions fs'' = (Ok table, fs'').
Proof.
  unfold main. intros H Hsame.
  destruct (pickleTree fs) as [segmentTree|] eqn:Hpickle.
  - injection H as Hq <-. rewrite Hsame, Hpickle, Hq. reflexivity.
  - destruct (load_points reads fs) as [[points| |] fs1]; try discriminate.
    destruct (__init__ points (segments_of reads)) as [segmentTree| |];
      try discriminate.
    injection H as Hq <-. cbn [pickleTree] in Hsame. rewrite Hsame, Hq.
    reflexivity.
Qed.

Lemma main_rerun_witness :
  exists (table : list entry) (fs' : files),
    main [(3, 1); (6, 4); (20, 0)] [4; 20; 3] no_files = (Ok table, fs') /\
    main toy_reads [4; 20; 3]
         {| points_file := Some "not a number"%string; pickleTree := pickleTree fs' |} =
      (Ok table,
       {| points_file := Some "not a number"%string; pickleTree := pickleTree fs' |}).
Proof.
  destruct (main [(3, 1); (6, 4); (20, 0)] [4; 20; 3] no_files) as [[table| |] fs']
    eqn:Hmain; try (vm_compute in Hmain; discriminate Hmain).
  exists table, fs'. split; [reflexivity|].
  apply (main_rerun [(3, 1); (6, 4); (20, 0)] toy_reads [4; 20; 3] no_files fs'
           {| points_file := Some "not a number"%string; pickleTree := pickleTree fs' |}
           table Hmain eq_refl).
Defined.
